(** * Participant/track reconciler of [script.js]: a shallow embedding

    The script mirrors the participant snapshots sent by a video-call SDK
    into the DOM.  The DOM is modelled as a forest of element nodes (the
    children of the [Document] node), every element carrying an identity,
    the attributes the script reads or writes, and its children.  The script's
    functions become state transformers that end normally or with a thrown
    exception; assignments to [srcObject], removals and console output are also
    recorded, in order, in a list of effects, so that what happened to an
    element remains visible after it has left the document.

    Session identifiers are strings, as in the source.  They are interpolated
    into CSS selectors there; the selector model reads
    [#video-container-${participantId}] as an id selector, which is what the
    browser does for identifiers made of letters, digits, [-] and [_]
    ([cssSafe] below).  For other identifiers the browser parses another
    selector or rejects the string; the statements about the video lookup of
    [startOrUpdateTrack] therefore carry [cssSafe] as a hypothesis. *)

From Stdlib Require Import String Ascii List Bool Arith Lia.
Import ListNotations.
Open Scope list_scope.
Open Scope string_scope.

Set Implicit Arguments.

(** ** Media objects *)

(** A [MediaStreamTrack] is known by its object identity only. *)
Definition MediaStreamTrack := nat.

(** A [MediaStream]: its object identity and the tracks it holds. *)
Record MediaStream := mkStream {
  streamId : nat;
  getTracks : list MediaStreamTrack
}.

(** The closure the script installs as [onloadedmetadata]: it calls [play()]
    and logs a rejection, naming the track type and the participant. *)
Inductive callback :=
| PlayAndLogFailure (trackType participantId : string).

(** ** Elements and the document *)

Record element := mkElement {
  nid : nat;                          (* object identity of the element *)
  tagName : string;
  elId : string;                      (* the id attribute, "" when absent *)
  className : list string;
  srcObject : option MediaStream;
  display : string;                   (* style.display *)
  textContent : string;
  onloadedmetadata : option callback
}.

#[warnings="-register-all"]
Inductive node := Node (el : element) (childNodes : list node).

Definition elOf (n : node) : element := let (e, _) := n in e.
Definition childrenOf (n : node) : list node := let (_, cs) := n in cs.

(** A fresh element, as [document.createElement] returns it. *)
Definition createElement (k : nat) (tag : string) : element :=
  mkElement k tag "" [] None "" "" None.

(** Document order: every node with the chain of its ancestors, nearest
    first. *)
Fixpoint walk (anc : list element) (n : node) : list (list element * node) :=
  match n with
  | Node e cs => (anc, n) :: flat_map (walk (e :: anc)) cs
  end.

Definition walkAll (anc : list element) (ns : list node) : list (list element * node) :=
  flat_map (walk anc) ns.

(** ** The CSS selectors the script uses *)

Record compound := mkCompound {
  selTag : option string;
  selId : option string;
  selClass : option string
}.

Inductive selector :=
| Simple (c : compound)
| Descendant (a c : compound).

Definition optMatches (o : option string) (v : string) : bool :=
  match o with
  | None => true
  | Some x => String.eqb x v
  end.

Definition hasClass (c : string) (e : element) : bool :=
  existsb (String.eqb c) (className e).

Definition matchesCompound (c : compound) (e : element) : bool :=
  optMatches (selTag c) (tagName e)
  && optMatches (selId c) (elId e)
  && match selClass c with
     | None => true
     | Some k => hasClass k e
     end.

Definition matchesSelector (anc : list element) (e : element) (s : selector) : bool :=
  match s with
  | Simple c => matchesCompound c e
  | Descendant a c => matchesCompound c e && existsb (matchesCompound a) anc
  end.

(** A selector list (comma separated) matches when one of its members does. *)
Definition matchesAny (sel : list selector) (x : list element * node) : bool :=
  existsb (matchesSelector (fst x) (elOf (snd x))) sel.

Definition querySelectorAll (sel : list selector) (doc : list node) : list node :=
  map snd (filter (matchesAny sel) (walkAll [] doc)).

Definition querySelector (sel : list selector) (doc : list node) : option node :=
  hd_error (querySelectorAll sel doc).

(** [element.querySelector] with a compound selector: the first descendant of
    the element that matches. *)
Definition querySelectorIn (c : compound) (n : node) : option node :=
  hd_error (map snd (filter (fun x => matchesCompound c (elOf (snd x)))
                            (walkAll [elOf n] (childrenOf n)))).

Definition hasId (i : string) (x : list element * node) : bool :=
  String.eqb (elId (elOf (snd x))) i.

Definition elementsById (i : string) (doc : list node) : list node :=
  map snd (filter (hasId i) (walkAll [] doc)).

(** [document.getElementById]: the first element in document order whose id
    is the one asked for; the empty id names nothing. *)
Definition getElementById (i : string) (doc : list node) : option node :=
  if String.eqb i "" then None else hd_error (elementsById i doc).

(** ** Mutations *)

Fixpoint mapNode (g : element -> element) (n : node) : node :=
  match n with
  | Node e cs => Node (g e) (map (mapNode g) cs)
  end.

(** Apply [f] to the element whose identity is [k]. *)
Definition onElement (k : nat) (f : element -> element) (e : element) : element :=
  if Nat.eqb (nid e) k then f e else e.

Definition updateElement (k : nat) (f : element -> element) (doc : list node) : list node :=
  map (mapNode (onElement k f)) doc.

Definition keeps (k : nat) (n : node) : bool := negb (Nat.eqb (nid (elOf n)) k).

(** Detach the element whose identity is [k], with its subtree. *)
Fixpoint prune (k : nat) (n : node) : node :=
  match n with
  | Node e cs => Node e (filter (keeps k) (map (prune k) cs))
  end.

Definition removeElement (k : nat) (doc : list node) : list node :=
  filter (keeps k) (map (prune k) doc).

(** Rewrite the first member of a list that [f] accepts. *)
Definition updFirst (A : Type) (f : A -> option A) : list A -> option (list A) :=
  fix go (l : list A) : option (list A) :=
    match l with
    | [] => None
    | x :: r =>
        match f x with
        | Some x' => Some (x' :: r)
        | None => option_map (cons x) (go r)
        end
    end.

(** [appendChild] on the first element, in document order, whose id is [i]. *)
Fixpoint appendUnder (i : string) (new : node) (n : node) {struct n} : option node :=
  match n with
  | Node e cs =>
      if String.eqb (elId e) i then Some (Node e (cs ++ [new])%list)
      else option_map (Node e) (updFirst (appendUnder i new) cs)
  end.

Definition with_srcObject (v : option MediaStream) (e : element) : element :=
  mkElement (nid e) (tagName e) (elId e) (className e) v
            (display e) (textContent e) (onloadedmetadata e).

Definition with_display (v : string) (e : element) : element :=
  mkElement (nid e) (tagName e) (elId e) (className e) (srcObject e)
            v (textContent e) (onloadedmetadata e).

Definition with_textContent (v : string) (e : element) : element :=
  mkElement (nid e) (tagName e) (elId e) (className e) (srcObject e)
            (display e) v (onloadedmetadata e).

Definition with_onloadedmetadata (v : option callback) (e : element) : element :=
  mkElement (nid e) (tagName e) (elId e) (className e) (srcObject e)
            (display e) (textContent e) v.

(** ** Events delivered by the SDK *)

(** A track descriptor: [state] and the optional live [persistentTrack]. *)
Record trackInfo := mkTrack {
  state : string;
  persistentTrack : option MediaStreamTrack
}.

(** A participant snapshot.  [tracks] lists the entries of the [tracks]
    object in the order [Object.entries] yields them. *)
Record Participant := mkParticipant {
  session_id : string;
  local : bool;
  tracks : list (string * trackInfo)
}.

Record Event := mkEvent { participant : Participant }.

(** ** The world the script runs in *)

Inductive effect :=
| ConsoleError (args : list string)
| SrcObjectSet (k : nat) (v : option MediaStream)
| Removed (k : nat)
| ParticipantCountRefreshed.

Record world := mkWorld {
  document : list node;
  nextNode : nat;                     (* identity of the next created element *)
  nextStream : nat;                   (* identity of the next created stream *)
  localVideo : bool;                  (* call.localVideo() *)
  localAudio : bool;                  (* call.localAudio() *)
  effects : list effect               (* oldest first *)
}.

Definition with_document (d : list node) (w : world) : world :=
  mkWorld d (nextNode w) (nextStream w) (localVideo w) (localAudio w) (effects w).

Definition emit (e : effect) (w : world) : world :=
  mkWorld (document w) (nextNode w) (nextStream w) (localVideo w) (localAudio w)
          (effects w ++ [e])%list.

Inductive exception := TypeError (msg : string).

(** How a call ends: normally, or by throwing; either way in a world. *)
Inductive outcome :=
| Normal (w : world)
| Thrown (e : exception) (w : world).

Definition worldOf (o : outcome) : world :=
  match o with
  | Normal w => w
  | Thrown _ w => w
  end.

Definition cmd := world -> outcome.

Definition skip : cmd := Normal.

Definition seq (c1 c2 : cmd) : cmd :=
  fun w => match c1 w with
           | Normal w' => c2 w'
           | Thrown e w' => Thrown e w'
           end.

Notation "c1 ;; c2" := (seq c1 c2) (at level 61, right associativity).

(** [Array.prototype.forEach]: the callback on each member in turn; an
    exception ends the loop. *)
Fixpoint forEach (A : Type) (f : A -> cmd) (l : list A) : cmd :=
  match l with
  | [] => skip
  | x :: r => f x ;; forEach f r
  end.

Definition consoleError (args : list string) : cmd :=
  fun w => Normal (emit (ConsoleError args) w).

(** [el.srcObject = v] *)
Definition setSrcObject (k : nat) (v : option MediaStream) : cmd :=
  fun w => Normal (emit (SrcObjectSet k v)
                        (with_document (updateElement k (with_srcObject v) (document w)) w)).

(** [el.remove()], [el.parentNode.removeChild(el)] *)
Definition remove (k : nat) : cmd :=
  fun w => Normal (emit (Removed k) (with_document (removeElement k (document w)) w)).

Definition setDisplay (k : nat) (v : string) : cmd :=
  fun w => Normal (with_document (updateElement k (with_display v) (document w)) w).

(** [el.textContent = v] for an element without element children, which is
    what the device labels of the page are; the text replaces the children
    the element may have, and those are not removed here. *)
Definition setTextContent (k : nat) (v : string) : cmd :=
  fun w => Normal (with_document (updateElement k (with_textContent v) (document w)) w).

Definition setOnloadedmetadata (k : nat) (v : option callback) : cmd :=
  fun w => Normal (with_document (updateElement k (with_onloadedmetadata v) (document w)) w).

(** ** The functions of [script.js] *)

Definition byId (i : string) : compound := mkCompound None (Some i) None.
Definition byTag (t : string) : compound := mkCompound (Some t) None None.

(** [video.video-element] *)
Definition videoElement : compound := mkCompound (Some "video") None (Some "video-element").

Definition containerId (participantId : string) : string :=
  "video-container-" ++ participantId.

Definition audioId (participantId : string) : string :=
  "audio-" ++ participantId.

(** The characters that leave [#video-container-${participantId}] an id
    selector for exactly that id: letters, digits, [-] and [_]. *)
Definition identChar (c : ascii) : bool :=
  let n := nat_of_ascii c in
  (Nat.leb 48 n && Nat.leb n 57) || (Nat.leb 65 n && Nat.leb n 90)
  || (Nat.leb 97 n && Nat.leb n 122) || Nat.eqb n 45 || Nat.eqb n 95.

Fixpoint cssSafe (s : string) : bool :=
  match s with
  | EmptyString => true
  | String c r => identChar c && cssSafe r
  end.

(** [#video-container-${participantId} video.video-element], as the browser
    reads it when [cssSafe participantId] holds. *)
Definition videoSelector (participantId : string) : list selector :=
  [Descendant (byId (containerId participantId)) videoElement].

(** The element [startOrUpdateTrack] works on.  For the track type [video]
    this is the result of [document.querySelector] on the interpolated
    selector, and is what the browser returns when [cssSafe participantId]
    holds; for every other track type it is [document.getElementById]. *)
Definition trackElement (trackType participantId : string) (doc : list node) : option node :=
  if String.eqb trackType "video"
  then querySelector (videoSelector participantId) doc
  else getElementById (audioId participantId) doc.

(** [existingTracks?.includes(track.persistentTrack)], as a truth value. *)
Definition includesTrack (existingTracks : option (list MediaStreamTrack))
           (t : option MediaStreamTrack) : bool :=
  match existingTracks, t with
  | Some ts, Some h => existsb (Nat.eqb h) ts
  | _, _ => false
  end.

(** [new MediaStream([t])] with the next free identity. *)
Definition newMediaStream (w : world) (t : MediaStreamTrack) : MediaStream * world :=
  (mkStream (nextStream w) [t],
   mkWorld (document w) (nextNode w) (S (nextStream w)) (localVideo w) (localAudio w)
           (effects w)).

Definition startOrUpdateTrack (trackType : string) (track : trackInfo)
           (participantId : string) : cmd :=
  fun w =>
    match trackElement trackType participantId (document w) with
    | None =>
        consoleError
          [trackType ++ " element does not exist for participant: " ++ participantId] w
    | Some trackEl =>
        let existingTracks := option_map getTracks (srcObject (elOf trackEl)) in
        let needsUpdate := negb (includesTrack existingTracks (persistentTrack track)) in
        if needsUpdate then
          match persistentTrack track with
          | None =>
              (* new MediaStream([undefined]) *)
              Thrown (TypeError "MediaStream: member is not a MediaStreamTrack") w
          | Some t =>
              let (stream, w1) := newMediaStream w t in
              (setSrcObject (nid (elOf trackEl)) (Some stream) ;;
               setOnloadedmetadata (nid (elOf trackEl))
                 (Some (PlayAndLogFailure trackType participantId))) w1
          end
        else Normal w
    end.

Definition hidesVideo (st : string) : bool :=
  String.eqb st "off" || String.eqb st "interrupted" || String.eqb st "blocked".

Definition updateVideoUi (track : trackInfo) (participantId : string) : cmd :=
  fun w =>
    match getElementById (containerId participantId) (document w) with
    | None => Thrown (TypeError "null has no property querySelector") w
    | Some container =>
        match querySelectorIn videoElement container with
        | None => Thrown (TypeError "null has no property style") w
        | Some videoEl =>
            if hidesVideo (state track)
            then setDisplay (nid (elOf videoEl)) "none" w
            else setDisplay (nid (elOf videoEl)) "" w
        end
    end.

Definition destroyTracks (trackTypes : list string) (participantId : string) : cmd :=
  forEach (fun trackType w =>
             let elementId := trackType ++ "-" ++ participantId in
             match getElementById elementId (document w) with
             | Some element =>
                 (setSrcObject (nid (elOf element)) None ;; remove (nid (elOf element))) w
             | None => Normal w
             end) trackTypes.

(** Modelled from the spec: [call.setLocalVideo] belongs to the SDK and is
    not in the script.  The spec has the toggles "invert the current local
    video/audio enablement through the external call handle", the truth
    living in the SDK; the setter is taken to make its argument the value
    that [call.localVideo()] returns from then on. *)
Definition setLocalVideo (enabled : bool) : cmd :=
  fun w => Normal (mkWorld (document w) (nextNode w) (nextStream w)
                           enabled (localAudio w) (effects w)).

(** Modelled from the spec: [call.setLocalAudio] belongs to the SDK and is
    not in the script; it is taken to make its argument the value that
    [call.localAudio()] returns from then on. *)
Definition setLocalAudio (enabled : bool) : cmd :=
  fun w => Normal (mkWorld (document w) (nextNode w) (nextStream w)
                           (localVideo w) enabled (effects w)).

Definition toggleCamera : cmd :=
  fun w => setLocalVideo (negb (localVideo w)) w.

Definition toggleMicrophone : cmd :=
  fun w => setLocalAudio (negb (localAudio w)) w.

Definition onOff (b : bool) : string := if b then "On" else "Off".

Definition updateUiForDevicesState (trackType : string) (trackInfo : trackInfo) : cmd :=
  fun w =>
    if String.eqb trackType "video" then
      match getElementById "camera-state" (document w) with
      | None => Thrown (TypeError "null has no property textContent") w
      | Some label => setTextContent (nid (elOf label)) ("Camera: " ++ onOff (localVideo w)) w
      end
    else if String.eqb trackType "audio" then
      match getElementById "mic-state" (document w) with
      | None => Thrown (TypeError "null has no property textContent") w
      | Some label => setTextContent (nid (elOf label)) ("Mic: " ++ onOff (localAudio w)) w
      end
    else Normal w.

(** How the promise of [call.leave()] settles. *)
Inductive settled :=
| Fulfilled
| Rejected (reason : string).

(** [#videos video, audio] *)
Definition leaveSelector : list selector :=
  [Descendant (byId "videos") (byTag "video"); Simple (byTag "audio")].

Definition leave (callLeave : settled) : cmd :=
  fun w =>
    match callLeave with
    | Fulfilled =>
        forEach (fun el => setSrcObject (nid (elOf el)) None ;; remove (nid (elOf el)))
                (querySelectorAll leaveSelector (document w)) w
    | Rejected e => consoleError ["Leaving failed"; e] w
    end.

(** ** The receiver of the participant handler

    [handleParticipantJoinedOrUpdated] reaches every other function through
    [this]; the handler is therefore written over an interface, and [app]
    below is the object whose methods are the functions of the script. *)

Module This.
Record t := mk {
  updateAndDisplayParticipantCount : cmd;
  createVideoContainer : string -> cmd;
  createAudioElement : string -> cmd;
  startOrUpdateTrack : string -> trackInfo -> string -> cmd;
  destroyTracks : list string -> string -> cmd;
  updateVideoUi : trackInfo -> string -> cmd;
  updateUiForDevicesState : string -> trackInfo -> cmd
}.
End This.

Definition isNone (A : Type) (o : option A) : bool :=
  match o with
  | None => true
  | Some _ => false
  end.

Definition when (b : bool) (c : cmd) : cmd := if b then c else skip.

(** The body of the loop over [Object.entries(tracks)]. *)
Definition handleTrack (this : This.t) (isLocal : bool) (participantId : string)
           (entry : string * trackInfo) : cmd :=
  let (trackType, trackInfo) := entry in
  match persistentTrack trackInfo with
  | Some _ =>
      when (negb (isLocal && String.eqb trackType "audio"))
           (This.startOrUpdateTrack this trackType trackInfo participantId)
  | None => This.destroyTracks this [trackType] participantId
  end ;;
  when (String.eqb trackType "video") (This.updateVideoUi this trackInfo participantId) ;;
  when isLocal (This.updateUiForDevicesState this trackType trackInfo).

Definition handleParticipantJoinedOrUpdated (this : This.t) (event : Event) : cmd :=
  let participantId := session_id (participant event) in
  let isLocal := local (participant event) in
  let tracks := tracks (participant event) in
  This.updateAndDisplayParticipantCount this ;;
  (fun w => when (isNone (getElementById (containerId participantId) (document w)))
                 (This.createVideoContainer this participantId) w) ;;
  (fun w => when (isNone (getElementById (audioId participantId) (document w))
                  && negb isLocal)
                 (This.createAudioElement this participantId) w) ;;
  forEach (handleTrack this isLocal participantId) tracks.

(** ** The helpers the handler calls that the script does not define *)

(** [appendChild] on the [#videos] root; a page without that root gets the
    element at the top of the document. *)
Definition appendToVideos (new : node) (doc : list node) : list node :=
  match updFirst (appendUnder "videos" new) doc with
  | Some doc' => doc'
  | None => (doc ++ [new])%list
  end.

(** Modelled from the spec: [updateAndDisplayParticipantCount] is called by
    the handler and defined nowhere in the script.  The spec has it
    "refresh a global participant-count display", unconditionally; the
    refresh is recorded as an effect and the document is left alone. *)
Definition updateAndDisplayParticipantCount : cmd :=
  fun w => Normal (emit ParticipantCountRefreshed w).

(** The container and the audio element as the spec's DOM conventions have
    them: [video-container-{id}] with a [video.video-element] child, and
    [audio-{id}]. *)
Definition newVideoContainer (k : nat) (participantId : string) : node :=
  Node (mkElement k "div" (containerId participantId) [] None "" "" None)
       [Node (mkElement (S k) "video" "" ["video-element"] None "" "" None) []].

Definition newAudioElement (k : nat) (participantId : string) : node :=
  Node (mkElement k "audio" (audioId participantId) [] None "" "" None) [].

(** Modelled from the spec: [createVideoContainer] is called by the handler
    and defined nowhere in the script.  By the spec's DOM conventions the
    container has the id [video-container-{id}], contains a
    [video.video-element] child, and is housed by the [#videos] root. *)
Definition createVideoContainer (participantId : string) : cmd :=
  fun w =>
    Normal (mkWorld (appendToVideos (newVideoContainer (nextNode w) participantId)
                                    (document w))
                    (S (S (nextNode w))) (nextStream w)
                    (localVideo w) (localAudio w) (effects w)).

(** Modelled from the spec: [createAudioElement] is called by the handler and
    defined nowhere in the script.  By the spec's DOM conventions the audio
    element has the id [audio-{id}] and is housed by the [#videos] root. *)
Definition createAudioElement (participantId : string) : cmd :=
  fun w =>
    Normal (mkWorld (appendToVideos (newAudioElement (nextNode w) participantId)
                                    (document w))
                    (S (nextNode w)) (nextStream w)
                    (localVideo w) (localAudio w) (effects w)).

(** The object the handlers are bound to. *)
Definition app : This.t :=
  This.mk updateAndDisplayParticipantCount createVideoContainer createAudioElement
          startOrUpdateTrack destroyTracks updateVideoUi updateUiForDevicesState.

(** Events are dispatched one at a time; a handler that throws ends its own
    event only, and the next event finds the world as it was left. *)
Definition runEvents (this : This.t) (events : list Event) (w : world) : world :=
  fold_left (fun w ev => worldOf (handleParticipantJoinedOrUpdated this ev w)) events w.

(** ** A page to run on *)

Definition plain (k : nat) (tag i : string) : element :=
  mkElement k tag i [] None "" "" None.

(** [body] with the [#videos] root and the two device-state labels. *)
Definition page : world :=
  mkWorld [Node (plain 0 "body" "")
                [Node (plain 1 "div" "videos") [];
                 Node (plain 2 "span" "camera-state") [];
                 Node (plain 3 "span" "mic-state") []]]
          4 0 true true [].

Definition joined (participantId : string) (isLocal : bool)
           (video audio : trackInfo) : Event :=
  mkEvent (mkParticipant participantId isLocal [("video", video); ("audio", audio)]).

(** * Notions used in the statements *)

(** ** Induction over a node and its children *)

Section NodeInduction.
Variable P : node -> Prop.
Hypothesis step : forall e cs, Forall P cs -> P (Node e cs).

Fixpoint node_forall_ind (n : node) : P n :=
  match n with
  | Node e cs =>
      step e ((fix all (l : list node) : Forall P l :=
                 match l with
                 | [] => Forall_nil P
                 | c :: r => Forall_cons c (node_forall_ind c) (all r)
                 end) cs)
  end.
End NodeInduction.

(** ** Updates, removals and counts *)

(** An update that leaves the identity, the tag, the id and the classes
    alone. *)
Definition keepsKey (g : element -> element) : Prop :=
  forall e, nid (g e) = nid e /\ tagName (g e) = tagName e
            /\ elId (g e) = elId e /\ className (g e) = className e.

Definition keepsNid (g : element -> element) : Prop := forall e, nid (g e) = nid e.

(** [g] on a node and on the chain of its ancestors. *)
Definition lift (g : element -> element) (x : list element * node) : list element * node :=
  (map g (fst x), mapNode g (snd x)).

Definition nidOf (n : node) : nat := nid (elOf n).

(** The elements with the identities [ks] removed one after the other. *)
Definition removeAll (ks : list nat) (doc : list node) : list node :=
  fold_left (fun d k => removeElement k d) ks doc.

(** Detach the source, then remove: what [leave] and [destroyTracks] do to
    an element. *)
Definition teardown (el : node) : list effect :=
  [SrcObjectSet (nid (elOf el)) None; Removed (nid (elOf el))].

(** The number of elements of a subtree, and of a document, that pass [p]. *)
Fixpoint countNodes (p : element -> bool) (n : node) : nat :=
  match n with
  | Node e cs => (if p e then 1 else 0) + list_sum (map (countNodes p) cs)
  end.

Definition count (p : element -> bool) (doc : list node) : nat :=
  list_sum (map (countNodes p) doc).

(** A test that looks at the identity, the tag, the id and the classes only. *)
Definition stable (p : element -> bool) : Prop :=
  forall g, keepsKey g -> forall e, p (g e) = p e.

Definition idIs (i : string) (e : element) : bool := String.eqb (elId e) i.

Definition tagIs (t : string) (e : element) : bool := String.eqb (tagName e) t.

Definition nidIs (k : nat) (e : element) : bool := Nat.eqb (nid e) k.

(** From [w] to [w'] no element was created and no count went up. *)
Definition noGrowth (w w' : world) : Prop :=
  nextNode w' = nextNode w
  /\ forall p, stable p -> count p (document w') <= count p (document w).

(** A command that creates nothing, however it ends. *)
Definition quiet (c : cmd) : Prop := forall w, noGrowth w (worldOf (c w)).

(** The elements of the world have distinct identities, all of them older
    than the next one to be created. *)
Definition wellFormed (w : world) : Prop :=
  forall k, count (nidIs k) (document w) <= (if Nat.ltb k (nextNode w) then 1 else 0).

(** ** Reconciliation and visibility *)

(** The lookup of [startOrUpdateTrack] is within the selector model: the
    track type is not [video] (the element is looked up by id), or the
    participant id is [cssSafe] (the interpolated selector is the id
    selector of [videoSelector]). *)
Definition selectorSafe (trackType participantId : string) : bool :=
  negb (String.eqb trackType "video") || cssSafe participantId.

(** The handle [t] is among the tracks of the source bound to [e]. *)
Definition bound (t : MediaStreamTrack) (e : element) : Prop :=
  exists stream, srcObject e = Some stream /\ In t (getTracks stream).

(** The text [startOrUpdateTrack] logs for a missing element. *)
Definition missingElementMessage (trackType participantId : string) : string :=
  trackType ++ " element does not exist for participant: " ++ participantId.

(** The track states for which [updateVideoUi] hides the video. *)
Definition hiddenState (st : string) : Prop :=
  st = "off" \/ st = "interrupted" \/ st = "blocked".

(** The receiver [this] with its reconciliation step for the track type
    [audio] replaced by [g]. *)
Definition withAudioReconcile (this : This.t) (g : trackInfo -> string -> cmd) : This.t :=
  This.mk (This.updateAndDisplayParticipantCount this)
          (This.createVideoContainer this)
          (This.createAudioElement this)
          (fun trackType =>
             if String.eqb trackType "audio" then g
             else This.startOrUpdateTrack this trackType)
          (This.destroyTracks this)
          (This.updateVideoUi this)
          (This.updateUiForDevicesState this).

(** ** Creation *)

(** The handler's opening statements: the count display is refreshed, and
    the container and the audio element are created where they are missing. *)
Definition ensureContainer (participantId : string) (w : world) : world :=
  if isNone (getElementById (containerId participantId) (document w))
  then worldOf (createVideoContainer participantId w) else w.

Definition ensureAudio (participantId : string) (isLocal : bool) (w : world) : world :=
  if isNone (getElementById (audioId participantId) (document w)) && negb isLocal
  then worldOf (createAudioElement participantId w) else w.

Definition ensureProjections (participantId : string) (isLocal : bool) (w : world) : world :=
  ensureAudio participantId isLocal
              (ensureContainer participantId (emit ParticipantCountRefreshed w)).

(** At most one element of the document carries the id [i]. *)
Definition atMostOne (i : string) (w : world) : Prop :=
  length (elementsById i (document w)) <= 1.

(** All [audio] elements of a document. *)
Definition audioElements (doc : list node) : list node :=
  querySelectorAll [Simple (byTag "audio")] doc.

(** ** The media under the [#videos] root *)

(** An element with the ancestors [anc] lies under the [#videos] root. *)
Definition underVideos (anc : list element) : Prop :=
  exists a, In a anc /\ elId a = "videos".

Definition isMedia (e : element) : Prop :=
  tagName e = "video" \/ tagName e = "audio".

(** ** The id conventions of the page *)

Fixpoint startsWith (pre s : string) : bool :=
  match pre with
  | EmptyString => true
  | String a pre' =>
      match s with
      | EmptyString => false
      | String b s' => Ascii.eqb a b && startsWith pre' s'
      end
  end.

(** The ids of the spec's DOM conventions: [videos], [camera-state],
    [mic-state], [video-container-{id}] and [audio-{id}]; an element may also
    have no id. *)
Definition conventionalId (i : string) : bool :=
  String.eqb i "" || String.eqb i "videos" || String.eqb i "camera-state"
  || String.eqb i "mic-state" || startsWith "video-container-" i || startsWith "audio-" i.

(** Every id in the document is one of the conventions. *)
Definition conventional (doc : list node) : Prop :=
  forall x, In x (walkAll [] doc) -> conventionalId (elId (elOf (snd x))) = true.

Definition conventionalb (doc : list node) : bool :=
  forallb (fun x => conventionalId (elId (elOf (snd x)))) (walkAll [] doc).

Definition unconventional (e : element) : bool := negb (conventionalId (elId e)).

(** ** Worlds and events of the examples *)

Definition remoteJoined : Event :=
  joined "p1" false (mkTrack "playable" (Some 7)) (mkTrack "playable" (Some 8)).

Definition localJoined : Event :=
  joined "me" true (mkTrack "playable" (Some 1)) (mkTrack "playable" (Some 2)).

(** The next snapshot of [p1] when its camera, or its microphone, has no
    live handle any more. *)
Definition videoLost : Event :=
  joined "p1" false (mkTrack "off" None) (mkTrack "playable" (Some 8)).

Definition audioLost : Event :=
  joined "p1" false (mkTrack "playable" (Some 7)) (mkTrack "off" None).

(** A call in progress: the remote participant [p1] has joined [page] with a
    live camera track 7 and a live microphone track 8 (the world
    [runEvents app [remoteJoined] page], evaluated). *)
Definition inCall : world := Eval vm_compute in runEvents app [remoteJoined] page.

(** The video element of [p1] in [inCall], and its container. *)
Definition videoOfP1 : node :=
  Node (mkElement 5 "video" "" ["video-element"] (Some (mkStream 0 [7])) "" ""
                  (Some (PlayAndLogFailure "video" "p1"))) [].

Definition containerOfP1 : node :=
  Node (plain 4 "div" "video-container-p1") [videoOfP1].

(** The call of [inCall] after a successful [leave]: the media elements are
    gone, the container of [p1] is still there, empty (the world of
    [leave Fulfilled inCall], evaluated). *)
Definition afterLeave : world := Eval vm_compute in worldOf (leave Fulfilled inCall).

(** A page with media outside the [#videos] root: an [audio] and a [video]
    element directly under [body]. *)
Definition strayMedia : world :=
  mkWorld [Node (plain 0 "body" "")
                [Node (plain 1 "div" "videos") [Node (plain 2 "video" "") []];
                 Node (plain 3 "audio" "") [];
                 Node (plain 4 "video" "") []]]
          5 0 true true [].

(** ** Observations on a document *)

(** Some element carries the id [i]. *)
Definition present (i : string) (doc : list node) : bool :=
  negb (isNone (getElementById i doc)).

(** The element with the id [i] exists and has a [video.video-element]
    descendant. *)
Definition hasVideoIn (i : string) (doc : list node) : bool :=
  match getElementById i doc with
  | Some c => negb (isNone (querySelectorIn videoElement c))
  | None => false
  end.

(** The display [updateVideoUi] writes for a track state. *)
Definition displayFor (st : string) : string :=
  if hidesVideo st then "none" else "".

(** The sources bound in a document, in document order. *)
Definition bindings (doc : list node) : list (option MediaStream) :=
  map (fun x => srcObject (elOf (snd x))) (walkAll [] doc).

(** Neither the element nor one of its ancestors has the identity [k]. *)
Definition clean (k : nat) (x : list element * node) : bool :=
  negb (Nat.eqb (nid (elOf (snd x))) k)
  && forallb (fun a => negb (Nat.eqb (nid a) k)) (fst x).

Definition isNil (A : Type) (l : list A) : bool :=
  match l with
  | [] => true
  | _ :: _ => false
  end.

(** The element with the id [i], if there is one, has no element children:
    writing its text removes nothing. *)
Definition leafLabel (i : string) (doc : list node) : bool :=
  match getElementById i doc with
  | Some n => isNil (childrenOf n)
  | None => true
  end.

(** For the local participant the two device-state labels are on the page,
    and they have no element children. *)
Definition labelsReady (isLocal : bool) (doc : list node) : bool :=
  negb isLocal
  || (present "camera-state" doc && present "mic-state" doc
      && leafLabel "camera-state" doc && leafLabel "mic-state" doc).

(** An entry with a live handle is looked up within the selector model; for
    an entry without one, no element carries the id that [destroyTracks]
    would look up. *)
Definition entryReady (participantId : string) (doc : list node)
           (entry : string * trackInfo) : bool :=
  match persistentTrack (snd entry) with
  | Some _ => selectorSafe (fst entry) participantId
  | None => negb (present (fst entry ++ "-" ++ participantId) doc)
  end.

(** The loop over the tracks finds what it dereferences: the participant's
    container with its video element, the labels, and every entry ready. *)
Definition steady (participantId : string) (isLocal : bool)
           (entries : list (string * trackInfo)) (doc : list node) : bool :=
  hasVideoIn (containerId participantId) doc
  && labelsReady isLocal doc
  && forallb (entryReady participantId doc) entries.

(** From [w] to [w'] every lookup by id answers alike: found or not, with a
    video element inside or not, with element children or not. *)
Definition sameLookups (w w' : world) : Prop :=
  forall i, present i (document w') = present i (document w)
            /\ hasVideoIn i (document w') = hasVideoIn i (document w)
            /\ leafLabel i (document w') = leafLabel i (document w).

(** An entry of the document order with the element [k] detached below. *)
Definition pruned (k : nat) (x : list element * node) : list element * node :=
  (fst x, prune k (snd x)).

(** Neither the element nor one of its ancestors is a [video] or an
    [audio] element. *)
Definition mediaFree (x : list element * node) : bool :=
  forallb (fun e => negb (tagIs "video" e || tagIs "audio" e)) (elOf (snd x) :: fst x).

(** Every descriptor of the snapshot carries a live handle. *)
Definition allLive (entries : list (string * trackInfo)) : bool :=
  forallb (fun entry => negb (isNone (persistentTrack (snd entry)))) entries.

(** A command that disturbs no lookup, however it ends. *)
Definition tame (c : cmd) : Prop := forall w, sameLookups w (worldOf (c w)).

(** A command that returns normally without disturbing a lookup. *)
Definition gentle (c : cmd) (w : world) : Prop :=
  exists w1, c w = Normal w1 /\ sameLookups w w1.

(** * Properties *)

(** ** Attribute updates do not disturb lookups *)

Lemma elOf_mapNode g n : elOf (mapNode g n) = g (elOf n).
Proof. destruct n; reflexivity. Qed.

Lemma childrenOf_mapNode g n : childrenOf (mapNode g n) = map (mapNode g) (childrenOf n).
Proof. destruct n; reflexivity. Qed.

Lemma walk_mapNode g n :
  forall anc, walk (map g anc) (mapNode g n) = map (lift g) (walk anc n).
Proof.
  induction n as [e cs IH] using node_forall_ind; intros anc; simpl.
  unfold lift at 1; simpl. f_equal.
  induction IH as [|c r Hc _ IHr]; simpl; [reflexivity|].
  rewrite map_app, <- IHr. f_equal. apply (Hc (e :: anc)).
Qed.

Lemma walkAll_mapNode g doc anc :
  walkAll (map g anc) (map (mapNode g) doc) = map (lift g) (walkAll anc doc).
Proof.
  unfold walkAll. induction doc as [|n r IH]; simpl; [reflexivity|].
  rewrite map_app, <- IH, walk_mapNode. reflexivity.
Qed.

Lemma filter_map_commute (A B : Type) (f : A -> B) (p : B -> bool) (q : A -> bool) l :
  (forall x, p (f x) = q x) -> filter p (map f l) = map f (filter q l).
Proof.
  intros H. induction l as [|x r IH]; simpl; [reflexivity|].
  rewrite H. destruct (q x); simpl; rewrite IH; reflexivity.
Qed.

Lemma hd_error_map (A B : Type) (f : A -> B) l :
  hd_error (map f l) = option_map f (hd_error l).
Proof. destruct l; reflexivity. Qed.

Lemma matchesCompound_keepsKey g c e :
  keepsKey g -> matchesCompound c (g e) = matchesCompound c e.
Proof.
  intros H. destruct (H e) as (_ & Ht & Hi & Hc).
  unfold matchesCompound, hasClass. rewrite Ht, Hi, Hc. reflexivity.
Qed.

Lemma existsb_map (A B : Type) (f : A -> B) (p : B -> bool) l :
  existsb p (map f l) = existsb (fun x => p (f x)) l.
Proof. induction l as [|x r IH]; simpl; [reflexivity|]. rewrite IH. reflexivity. Qed.

Lemma existsb_pointwise (A : Type) (p q : A -> bool) l :
  (forall x, p x = q x) -> existsb p l = existsb q l.
Proof.
  intros H. induction l as [|x r IH]; simpl; [reflexivity|].
  rewrite H, IH. reflexivity.
Qed.

Lemma matchesAny_lift g sel x :
  keepsKey g -> matchesAny sel (lift g x) = matchesAny sel x.
Proof.
  intros H. unfold matchesAny, lift; simpl. rewrite elOf_mapNode.
  apply existsb_pointwise. intros [c|a c]; simpl.
  - apply matchesCompound_keepsKey, H.
  - rewrite matchesCompound_keepsKey by exact H. f_equal.
    rewrite existsb_map. apply existsb_pointwise. intros y.
    apply matchesCompound_keepsKey, H.
Qed.

Lemma querySelectorAll_mapNode g sel doc :
  keepsKey g ->
  querySelectorAll sel (map (mapNode g) doc) = map (mapNode g) (querySelectorAll sel doc).
Proof.
  intros H. unfold querySelectorAll.
  change (@nil element) with (map g []) at 1.
  rewrite walkAll_mapNode.
  rewrite (filter_map_commute (lift g) (matchesAny sel) (matchesAny sel)).
  - rewrite !map_map. reflexivity.
  - intros x. apply matchesAny_lift, H.
Qed.

Lemma querySelector_mapNode g sel doc :
  keepsKey g ->
  querySelector sel (map (mapNode g) doc) = option_map (mapNode g) (querySelector sel doc).
Proof.
  intros H. unfold querySelector. rewrite querySelectorAll_mapNode by exact H.
  apply hd_error_map.
Qed.

Lemma elementsById_mapNode g i doc :
  keepsKey g ->
  elementsById i (map (mapNode g) doc) = map (mapNode g) (elementsById i doc).
Proof.
  intros H. unfold elementsById.
  change (@nil element) with (map g []) at 1.
  rewrite walkAll_mapNode.
  rewrite (filter_map_commute (lift g) (hasId i) (hasId i)).
  - rewrite !map_map. reflexivity.
  - intros x. unfold hasId, lift; simpl. rewrite elOf_mapNode.
    destruct (H (elOf (snd x))) as (_ & _ & Hi & _). rewrite Hi. reflexivity.
Qed.

Lemma getElementById_mapNode g i doc :
  keepsKey g ->
  getElementById i (map (mapNode g) doc) = option_map (mapNode g) (getElementById i doc).
Proof.
  intros H. unfold getElementById. destruct (String.eqb i ""); [reflexivity|].
  rewrite elementsById_mapNode by exact H. apply hd_error_map.
Qed.

Lemma querySelectorIn_mapNode g c n :
  keepsKey g ->
  querySelectorIn c (mapNode g n) = option_map (mapNode g) (querySelectorIn c n).
Proof.
  intros H. unfold querySelectorIn.
  rewrite elOf_mapNode, childrenOf_mapNode.
  change [g (elOf n)] with (map g [elOf n]).
  rewrite walkAll_mapNode.
  rewrite (filter_map_commute (lift g) _ (fun x => matchesCompound c (elOf (snd x)))).
  - rewrite !map_map. rewrite <- hd_error_map.
    f_equal. rewrite map_map. reflexivity.
  - intros x. unfold lift; simpl. rewrite elOf_mapNode.
    apply matchesCompound_keepsKey, H.
Qed.

Lemma keepsKey_onElement k f :
  keepsKey f -> keepsKey (onElement k f).
Proof.
  intros H e. unfold onElement. destruct (Nat.eqb (nid e) k); [apply H|auto].
Qed.

Lemma keepsKey_srcObject v : keepsKey (with_srcObject v).
Proof. intros e; simpl; auto. Qed.

Lemma keepsKey_display v : keepsKey (with_display v).
Proof. intros e; simpl; auto. Qed.

Lemma keepsKey_textContent v : keepsKey (with_textContent v).
Proof. intros e; simpl; auto. Qed.

Lemma keepsKey_onloadedmetadata v : keepsKey (with_onloadedmetadata v).
Proof. intros e; simpl; auto. Qed.

Create HintDb dom.

#[local] Hint Resolve keepsKey_onElement keepsKey_srcObject keepsKey_display
  keepsKey_textContent keepsKey_onloadedmetadata : dom.

Lemma trackElement_update k f trackType participantId doc :
  keepsKey f ->
  trackElement trackType participantId (updateElement k f doc)
  = option_map (mapNode (onElement k f)) (trackElement trackType participantId doc).
Proof.
  intros H. unfold trackElement, updateElement.
  destruct (String.eqb trackType "video").
  - apply querySelector_mapNode; auto with dom.
  - apply getElementById_mapNode; auto with dom.
Qed.

(** ** Reconciling the media source: [startOrUpdateTrack] *)

Lemma includesTrack_bound t e :
  includesTrack (option_map getTracks (srcObject e)) (Some t) = true <-> bound t e.
Proof.
  unfold bound. destruct (srcObject e) as [stream|]; simpl.
  - rewrite existsb_exists. split.
    + intros (x & Hin & Heq). apply Nat.eqb_eq in Heq. subst x. eauto.
    + intros (st & Hst & Hin). injection Hst as <-.
      exists t. split; [exact Hin|apply Nat.eqb_refl].
  - split; [discriminate|]. intros (st & Hst & _). discriminate.
Qed.

(** C10.  When the target media element is not in the document,
    [startOrUpdateTrack] logs one error naming the track type and the
    participant and returns normally: the document is untouched, no stream is
    created, nothing is bound, and nothing else happens (no retry).  The
    lookup is the one of the selector model ([selectorSafe]). *)
Theorem startOrUpdateTrack_missing_element trackType track participantId w :
  selectorSafe trackType participantId = true ->
  trackElement trackType participantId (document w) = None ->
  exists w',
    startOrUpdateTrack trackType track participantId w = Normal w'
    /\ document w' = document w
    /\ nextStream w' = nextStream w
    /\ effects w'
       = (effects w ++ [ConsoleError [missingElementMessage trackType participantId]])%list.
Proof.
  intros _ H. unfold startOrUpdateTrack. rewrite H.
  eexists. split; [reflexivity|]. simpl. auto.
Qed.

Lemma startOrUpdateTrack_missing_element_witness :
  selectorSafe "video" "p9" = true
  /\ trackElement "video" "p9" (document page) = None
  /\ exists w',
       startOrUpdateTrack "video" (mkTrack "playable" (Some 7)) "p9" page = Normal w'
       /\ document w' = document page
       /\ nextStream w' = nextStream page
       /\ effects w'
          = (effects page ++ [ConsoleError [missingElementMessage "video" "p9"]])%list.
Proof.
  split; [reflexivity|]. split; [reflexivity|].
  apply (@startOrUpdateTrack_missing_element "video" (mkTrack "playable" (Some 7)) "p9" page).
  - reflexivity.
  - reflexivity.
Defined.

(** C5.  With the target element found and a live handle [t] in the
    descriptor: if [t] is already among the tracks of the bound source the
    call changes nothing at all (same source object, no new stream, nothing
    logged); otherwise the element's source becomes a newly created stream
    holding exactly [t], whatever was bound before.  The target element is
    the one the selector model finds ([selectorSafe]). *)
Theorem startOrUpdateTrack_rebinds_only_when_needed
        trackType track participantId w trackEl t :
  selectorSafe trackType participantId = true ->
  trackElement trackType participantId (document w) = Some trackEl ->
  persistentTrack track = Some t ->
  (bound t (elOf trackEl) ->
   startOrUpdateTrack trackType track participantId w = Normal w)
  /\
  (~ bound t (elOf trackEl) ->
   exists w' trackEl',
     startOrUpdateTrack trackType track participantId w = Normal w'
     /\ trackElement trackType participantId (document w') = Some trackEl'
     /\ nid (elOf trackEl') = nid (elOf trackEl)
     /\ srcObject (elOf trackEl') = Some (mkStream (nextStream w) [t])
     /\ nextStream w' = S (nextStream w)).
Proof.
  intros _ Hel Ht. unfold startOrUpdateTrack. rewrite Hel, Ht. split.
  - intros Hb. apply includesTrack_bound in Hb. rewrite Hb. reflexivity.
  - intros Hnb.
    destruct (includesTrack (option_map getTracks (srcObject (elOf trackEl))) (Some t))
      eqn:Hinc.
    + exfalso. apply Hnb, includesTrack_bound, Hinc.
    + simpl. do 2 eexists. split; [reflexivity|]. simpl.
      rewrite !trackElement_update by auto with dom. rewrite Hel. simpl.
      split; [reflexivity|].
      rewrite !elOf_mapNode. unfold onElement. simpl.
      rewrite Nat.eqb_refl. simpl. rewrite Nat.eqb_refl. simpl. auto.
Qed.

Lemma hidesVideo_hiddenState st : hidesVideo st = true <-> hiddenState st.
Proof.
  unfold hidesVideo, hiddenState.
  rewrite !orb_true_iff, !String.eqb_eq. tauto.
Qed.

(** C4.  When the participant's video element is in place, [updateVideoUi]
    sets its display from the track state: [none] for [off], [interrupted]
    and [blocked]; the empty (visible) display for [playable] and for every
    other state. *)
Theorem updateVideoUi_visibility track participantId w container videoEl :
  getElementById (containerId participantId) (document w) = Some container ->
  querySelectorIn videoElement container = Some videoEl ->
  exists w' container' videoEl',
    updateVideoUi track participantId w = Normal w'
    /\ getElementById (containerId participantId) (document w') = Some container'
    /\ querySelectorIn videoElement container' = Some videoEl'
    /\ nid (elOf videoEl') = nid (elOf videoEl)
    /\ (hiddenState (state track) -> display (elOf videoEl') = "none")
    /\ (~ hiddenState (state track) -> display (elOf videoEl') = "").
Proof.
  intros Hc Hv. unfold updateVideoUi. rewrite Hc, Hv.
  destruct (hidesVideo (state track)) eqn:Hh.
  - do 3 eexists. split; [reflexivity|]. simpl. unfold updateElement.
    rewrite getElementById_mapNode, Hc by auto with dom. simpl.
    split; [reflexivity|].
    rewrite querySelectorIn_mapNode, Hv by auto with dom. simpl.
    split; [reflexivity|].
    rewrite elOf_mapNode. unfold onElement. rewrite Nat.eqb_refl. simpl.
    split; [reflexivity|]. split; [reflexivity|].
    intros Hn. exfalso. apply Hn, hidesVideo_hiddenState, Hh.
  - do 3 eexists. split; [reflexivity|]. simpl. unfold updateElement.
    rewrite getElementById_mapNode, Hc by auto with dom. simpl.
    split; [reflexivity|].
    rewrite querySelectorIn_mapNode, Hv by auto with dom. simpl.
    split; [reflexivity|].
    rewrite elOf_mapNode. unfold onElement. rewrite Nat.eqb_refl. simpl.
    split; [reflexivity|]. split; [|reflexivity].
    intros Hn. apply hidesVideo_hiddenState in Hn. congruence.
Qed.

Lemma startOrUpdateTrack_rebinds_only_when_needed_witness :
  selectorSafe "video" "p1" = true
  /\ trackElement "video" "p1" (document inCall) = Some videoOfP1
  /\ startOrUpdateTrack "video" (mkTrack "playable" (Some 7)) "p1" inCall = Normal inCall
  /\ exists w' trackEl',
       startOrUpdateTrack "video" (mkTrack "playable" (Some 9)) "p1" inCall = Normal w'
       /\ trackElement "video" "p1" (document w') = Some trackEl'
       /\ nid (elOf trackEl') = nid (elOf videoOfP1)
       /\ srcObject (elOf trackEl') = Some (mkStream (nextStream inCall) [9])
       /\ nextStream w' = S (nextStream inCall).
Proof.
  split; [reflexivity|]. split; [reflexivity|]. split.
  - apply (@startOrUpdateTrack_rebinds_only_when_needed
             "video" (mkTrack "playable" (Some 7)) "p1" inCall videoOfP1 7);
      [reflexivity|reflexivity|reflexivity|].
    exists (mkStream 0 [7]). split; [reflexivity|]. simpl. auto.
  - apply (@startOrUpdateTrack_rebinds_only_when_needed
             "video" (mkTrack "playable" (Some 9)) "p1" inCall videoOfP1 9);
      [reflexivity|reflexivity|reflexivity|].
    intros (stream & Hs & Hin). simpl in Hs. injection Hs as <-.
    simpl in Hin. destruct Hin as [Hin|[]]. discriminate.
Defined.

Lemma updateVideoUi_visibility_witness :
  exists w' container' videoEl',
    updateVideoUi (mkTrack "blocked" (Some 7)) "p1" inCall = Normal w'
    /\ getElementById (containerId "p1") (document w') = Some container'
    /\ querySelectorIn videoElement container' = Some videoEl'
    /\ nid (elOf videoEl') = nid (elOf videoOfP1)
    /\ display (elOf videoEl') = "none".
Proof.
  destruct (@updateVideoUi_visibility (mkTrack "blocked" (Some 7)) "p1" inCall
                                      containerOfP1 videoOfP1 eq_refl eq_refl)
    as (w' & container' & videoEl' & H1 & H2 & H3 & H4 & H5 & _).
  exists w', container', videoEl'. repeat split; try assumption.
  apply H5. right. right. reflexivity.
Defined.

(** ** The local microphone is never reconciled *)

Lemma seq_pointwise (c1 c1' c2 c2' : cmd) w :
  c1 w = c1' w -> (forall v, c2 v = c2' v) -> (c1 ;; c2) w = (c1' ;; c2') w.
Proof.
  intros H1 H2. unfold seq. rewrite H1. destruct (c1' w); [apply H2|reflexivity].
Qed.

Lemma forEach_pointwise (A : Type) (f g : A -> cmd) l :
  (forall x w, f x w = g x w) -> forall w, forEach f l w = forEach g l w.
Proof.
  intros H. induction l as [|x r IH]; intros w; simpl; [reflexivity|].
  apply seq_pointwise; [apply H|exact IH].
Qed.

(** C6.  For a snapshot of the local participant the handler does not call
    the reconciliation step with the track type [audio]: whatever that step
    would do there ([g] is arbitrary, it may throw or rewrite the world), the
    handler's result is the same.  The descriptor's live handle plays no
    part. *)
Theorem local_audio_never_reconciled this g event w :
  local (participant event) = true ->
  handleParticipantJoinedOrUpdated (withAudioReconcile this g) event w
  = handleParticipantJoinedOrUpdated this event w.
Proof.
  intros Hlocal. unfold handleParticipantJoinedOrUpdated. rewrite Hlocal.
  apply seq_pointwise; [reflexivity|]. intros w1.
  apply seq_pointwise; [reflexivity|]. intros w2.
  apply seq_pointwise; [reflexivity|]. intros w3.
  apply forEach_pointwise. intros [trackType trackInfo] v. unfold handleTrack.
  apply seq_pointwise; [|reflexivity].
  destruct (persistentTrack trackInfo); [|reflexivity].
  simpl. destruct (String.eqb trackType "audio"); reflexivity.
Qed.

Lemma local_audio_never_reconciled_witness :
  local (participant localJoined) = true
  /\ handleParticipantJoinedOrUpdated
       (withAudioReconcile app (fun _ _ w => Thrown (TypeError "audio reconciled") w))
       localJoined page
     = handleParticipantJoinedOrUpdated app localJoined page.
Proof.
  split; [reflexivity|].
  apply (@local_audio_never_reconciled
           app (fun _ _ w => Thrown (TypeError "audio reconciled") w) localJoined page).
  reflexivity.
Defined.

(** For a remote participant the replaced step does run: the reconciliation
    of the audio track is what the handler's result then depends on. *)
Example remote_audio_is_reconciled :
  handleParticipantJoinedOrUpdated
    (withAudioReconcile app (fun _ _ w => Thrown (TypeError "audio reconciled") w))
    remoteJoined inCall
  = Thrown (TypeError "audio reconciled") (emit ParticipantCountRefreshed inCall).
Proof. vm_compute. reflexivity. Qed.

(** ** Removal *)

Lemma elOf_prune k n : elOf (prune k n) = elOf n.
Proof. destruct n; reflexivity. Qed.

Lemma keeps_prune k j n : keeps k (prune j n) = keeps k n.
Proof. unfold keeps. rewrite elOf_prune. reflexivity. Qed.

Lemma keeps_mapNode k g n : keepsNid g -> keeps k (mapNode g n) = keeps k n.
Proof. intros H. unfold keeps. rewrite elOf_mapNode, H. reflexivity. Qed.

Lemma keepsNid_onElement k f : keepsNid f -> keepsNid (onElement k f).
Proof.
  intros H e. unfold onElement. destruct (Nat.eqb (nid e) k); [apply H|reflexivity].
Qed.

Lemma keepsNid_srcObject v : keepsNid (with_srcObject v).
Proof. intros e; reflexivity. Qed.

#[local] Hint Resolve keepsNid_onElement keepsNid_srcObject : dom.

Lemma filter_prune_update k g cs :
  keepsNid g ->
  Forall (fun c => keeps k c = true -> prune k (mapNode g c) = prune k c) cs ->
  filter (keeps k) (map (prune k) (map (mapNode g) cs))
  = filter (keeps k) (map (prune k) cs).
Proof.
  intros Hg H. induction H as [|c r Hc _ IHr]; simpl; [reflexivity|].
  rewrite !keeps_prune, keeps_mapNode by exact Hg.
  destruct (keeps k c) eqn:E; [|exact IHr].
  rewrite Hc by reflexivity. f_equal. exact IHr.
Qed.

(** Removing an element makes an earlier update of that element moot. *)
Lemma prune_update k f n :
  keepsNid f ->
  keeps k n = true -> prune k (mapNode (onElement k f) n) = prune k n.
Proof.
  intros Hf. induction n as [e cs IH] using node_forall_ind. intros Hk; simpl.
  unfold keeps in Hk; simpl in Hk. apply negb_true_iff in Hk.
  unfold onElement at 1. rewrite Hk. f_equal.
  apply filter_prune_update; auto with dom.
Qed.

Lemma removeElement_update k f doc :
  keepsNid f -> removeElement k (updateElement k f doc) = removeElement k doc.
Proof.
  intros Hf. unfold removeElement, updateElement.
  apply filter_prune_update; auto with dom.
  apply Forall_forall. intros c _. apply prune_update, Hf.
Qed.

(** What is left after a removal was there before, with the same ancestors
    and the same attributes, and is not the removed element. *)
Lemma walk_filter_prune k cs anc x :
  Forall (fun c => forall anc x,
              In x (walk anc (prune k c)) ->
              keeps k c = true ->
              exists y, In y (walk anc c) /\ fst y = fst x
                        /\ elOf (snd y) = elOf (snd x)
                        /\ nid (elOf (snd x)) <> k) cs ->
  In x (walkAll anc (filter (keeps k) (map (prune k) cs))) ->
  exists y, In y (walkAll anc cs) /\ fst y = fst x
            /\ elOf (snd y) = elOf (snd x)
            /\ nid (elOf (snd x)) <> k.
Proof.
  intros H Hin. unfold walkAll in *. apply in_flat_map in Hin.
  destruct Hin as (c' & Hc' & Hx).
  apply filter_In in Hc'. destruct Hc' as [Hc' Hkeep].
  apply in_map_iff in Hc'. destruct Hc' as (c & <- & Hc).
  rewrite keeps_prune in Hkeep.
  rewrite Forall_forall in H.
  destruct (H c Hc anc x Hx Hkeep) as (y & Hy & Hrest).
  exists y. split; [|exact Hrest].
  apply in_flat_map. exists c. auto.
Qed.

Lemma walk_prune k n :
  forall anc x,
    In x (walk anc (prune k n)) ->
    keeps k n = true ->
    exists y, In y (walk anc n) /\ fst y = fst x
              /\ elOf (snd y) = elOf (snd x)
              /\ nid (elOf (snd x)) <> k.
Proof.
  induction n as [e cs IH] using node_forall_ind. intros anc x Hin Hk.
  simpl in Hin. destruct Hin as [<-|Hin].
  - exists (anc, Node e cs). simpl. repeat split; auto.
    unfold keeps in Hk; simpl in Hk.
    apply negb_true_iff, Nat.eqb_neq in Hk. exact Hk.
  - destruct (@walk_filter_prune k cs (e :: anc) x IH Hin) as (y & Hy & Hrest).
    exists y. split; [|exact Hrest]. simpl. right. exact Hy.
Qed.

Lemma walkAll_removeElement k doc anc x :
  In x (walkAll anc (removeElement k doc)) ->
  exists y, In y (walkAll anc doc) /\ fst y = fst x
            /\ elOf (snd y) = elOf (snd x)
            /\ nid (elOf (snd x)) <> k.
Proof.
  apply walk_filter_prune. apply Forall_forall. intros c _. apply walk_prune.
Qed.

Lemma walkAll_removeAll ks :
  forall doc anc x,
    In x (walkAll anc (removeAll ks doc)) ->
    exists y, In y (walkAll anc doc) /\ fst y = fst x
              /\ elOf (snd y) = elOf (snd x)
              /\ ~ In (nid (elOf (snd x))) ks.
Proof.
  induction ks as [|k r IH]; intros doc anc x Hin; simpl in *.
  - exists x. auto.
  - destruct (IH _ _ _ Hin) as (y & Hy & Hf & He & Hn).
    destruct (walkAll_removeElement _ _ _ _ Hy) as (z & Hz & Hf' & He' & Hn').
    exists z. repeat split; try congruence.
    intros [Hk|Hk]; [|exact (Hn Hk)].
    apply Hn'. rewrite He. symmetry. exact Hk.
Qed.

(** ** Leaving the call *)

Lemma leave_loop l :
  forall w,
    forEach (fun el => setSrcObject (nid (elOf el)) None ;; remove (nid (elOf el))) l w
    = Normal (mkWorld (removeAll (map nidOf l) (document w)) (nextNode w) (nextStream w)
                      (localVideo w) (localAudio w)
                      (effects w ++ flat_map teardown l)%list).
Proof.
  induction l as [|el r IH]; intros w; simpl.
  - rewrite app_nil_r. destruct w; reflexivity.
  - unfold seq at 1. unfold seq at 1. simpl. rewrite IH. simpl.
    rewrite removeElement_update by auto with dom.
    rewrite <- !app_assoc. reflexivity.
Qed.

Lemma matchesAny_same sel x y :
  fst y = fst x -> elOf (snd y) = elOf (snd x) -> matchesAny sel y = matchesAny sel x.
Proof. intros Hf He. unfold matchesAny. rewrite Hf, He. reflexivity. Qed.

(** Once every selected element has been removed, nothing in the document
    matches the selector. *)
Lemma removeAll_selected_clears sel doc x :
  In x (walkAll [] (removeAll (map nidOf (querySelectorAll sel doc)) doc)) ->
  matchesAny sel x = false.
Proof.
  intros Hin. destruct (walkAll_removeAll _ _ _ _ Hin) as (y & Hy & Hf & He & Hn).
  destruct (matchesAny sel x) eqn:Hm; [|reflexivity].
  exfalso. apply Hn. apply in_map_iff. exists (snd y). split.
  - unfold nidOf. rewrite He. reflexivity.
  - unfold querySelectorAll. apply in_map, filter_In. split; [exact Hy|].
    rewrite (matchesAny_same sel x y Hf He). exact Hm.
Qed.

Lemma existsb_byId i anc :
  existsb (matchesCompound (byId i)) anc = true <-> exists a, In a anc /\ elId a = i.
Proof.
  rewrite existsb_exists. split; intros (a & Ha & Hm); exists a; split; auto.
  - unfold matchesCompound in Hm; simpl in Hm.
    rewrite andb_true_r in Hm. apply String.eqb_eq in Hm. auto.
  - unfold matchesCompound; simpl. rewrite andb_true_r. apply String.eqb_eq. auto.
Qed.

Lemma matchesCompound_byTag t e :
  matchesCompound (byTag t) e = true <-> tagName e = t.
Proof.
  unfold matchesCompound; simpl. rewrite !andb_true_r, String.eqb_eq.
  split; auto.
Qed.

(** What [#videos video, audio] selects. *)
Lemma leaveSelector_matches x :
  matchesAny leaveSelector x = true
  <-> tagName (elOf (snd x)) = "audio"
      \/ (tagName (elOf (snd x)) = "video" /\ underVideos (fst x)).
Proof.
  unfold matchesAny, leaveSelector. simpl. rewrite orb_false_r.
  rewrite orb_true_iff, andb_true_iff, !matchesCompound_byTag, existsb_byId.
  unfold underVideos. tauto.
Qed.

(** C8.  [leave] treats the document all-or-nothing.  When the SDK's
    [leave()] fulfils, every [video] and [audio] element under the [#videos]
    root is among the selected elements, each selected element has its source
    set to [null] and is then removed (in this order, one element after the
    other), and afterwards no media element is left under the root.  When the
    SDK's [leave()] rejects, one error is logged and the document is exactly
    as it was. *)
Theorem leave_all_or_nothing w :
  (exists w',
     leave Fulfilled w = Normal w'
     /\ (forall x, In x (walkAll [] (document w)) ->
                   isMedia (elOf (snd x)) -> underVideos (fst x) ->
                   In (snd x) (querySelectorAll leaveSelector (document w)))
     /\ effects w'
        = (effects w
             ++ flat_map teardown (querySelectorAll leaveSelector (document w)))%list
     /\ (forall x, In x (walkAll [] (document w')) ->
                   isMedia (elOf (snd x)) -> ~ underVideos (fst x)))
  /\
  (forall reason,
     exists w',
       leave (Rejected reason) w = Normal w'
       /\ document w' = document w
       /\ effects w' = (effects w ++ [ConsoleError ["Leaving failed"; reason]])%list).
Proof.
  split.
  - eexists. split; [unfold leave; apply leave_loop|]. simpl.
    split; [|split; [reflexivity|]].
    + intros x Hin Hmedia Hunder. unfold querySelectorAll.
      apply in_map, filter_In. split; [exact Hin|].
      apply leaveSelector_matches. destruct Hmedia; auto.
    + intros x Hin Hmedia Hunder.
      apply removeAll_selected_clears in Hin.
      assert (matchesAny leaveSelector x = true); [|congruence].
      apply leaveSelector_matches. destruct Hmedia; auto.
  - intros reason. eexists. split; [reflexivity|]. simpl. auto.
Qed.

(** C9.  The selector [#videos video, audio] picks every [audio] element of
    the document, wherever it is, and a [video] element only when it descends
    from [#videos].  A successful [leave] tears down exactly the selected
    elements, so no [audio] element is left anywhere in the document. *)
Theorem leave_selector_scope w :
  (forall x,
     matchesAny leaveSelector x = true
     <-> tagName (elOf (snd x)) = "audio"
         \/ (tagName (elOf (snd x)) = "video" /\ underVideos (fst x)))
  /\
  exists w',
    leave Fulfilled w = Normal w'
    /\ effects w'
       = (effects w
            ++ flat_map teardown
                 (map snd (filter (matchesAny leaveSelector) (walkAll [] (document w)))))%list
    /\ (forall x, In x (walkAll [] (document w')) -> tagName (elOf (snd x)) <> "audio").
Proof.
  split; [exact leaveSelector_matches|].
  eexists. split; [unfold leave; apply leave_loop|]. simpl.
  split; [reflexivity|].
  intros x Hin Htag. apply removeAll_selected_clears in Hin.
  assert (matchesAny leaveSelector x = true); [|congruence].
  apply leaveSelector_matches. auto.
Qed.

(** On [strayMedia] a successful [leave] removes the stray [audio] element
    and keeps the stray [video] element. *)
Example leave_stray_media :
  leave Fulfilled strayMedia
  = Normal (mkWorld [Node (plain 0 "body" "")
                          [Node (plain 1 "div" "videos") [];
                           Node (plain 4 "video" "") []]]
                    5 0 true true
                    [SrcObjectSet 2 None; Removed 2; SrcObjectSet 3 None; Removed 3]).
Proof. reflexivity. Qed.

(** ** Counting elements *)

Lemma length_filter_walk p n :
  forall anc,
    length (filter (fun x => p (elOf (snd x))) (walk anc n)) = countNodes p n.
Proof.
  induction n as [e cs IH] using node_forall_ind. intros anc. simpl.
  assert (H : length (filter (fun x => p (elOf (snd x)))
                             (flat_map (walk (e :: anc)) cs))
              = list_sum (map (countNodes p) cs)).
  { induction IH as [|c r Hc _ IHr]; simpl; [reflexivity|].
    rewrite filter_app, length_app, Hc, IHr. reflexivity. }
  destruct (p e); simpl; rewrite H; reflexivity.
Qed.

Lemma length_filter_walkAll p doc anc :
  length (filter (fun x => p (elOf (snd x))) (walkAll anc doc)) = count p doc.
Proof.
  unfold walkAll, count. induction doc as [|n r IH]; simpl; [reflexivity|].
  rewrite filter_app, length_app, length_filter_walk, IH. reflexivity.
Qed.

Lemma length_elementsById i doc : length (elementsById i doc) = count (idIs i) doc.
Proof.
  unfold elementsById. rewrite length_map.
  apply (length_filter_walkAll (idIs i)).
Qed.

Lemma getElementById_None_count i doc :
  i <> "" -> getElementById i doc = None -> count (idIs i) doc = 0.
Proof.
  intros Hi H. unfold getElementById in H.
  apply String.eqb_neq in Hi. rewrite Hi in H.
  rewrite <- length_elementsById.
  destruct (elementsById i doc); [reflexivity|discriminate].
Qed.

Lemma countNodes_mapNode p g n :
  (forall e, p (g e) = p e) -> countNodes p (mapNode g n) = countNodes p n.
Proof.
  intros H. induction n as [e cs IH] using node_forall_ind. simpl.
  rewrite H. f_equal. rewrite map_map.
  induction IH as [|c r Hc _ IHr]; simpl; [reflexivity|].
  rewrite Hc, IHr. reflexivity.
Qed.

Lemma count_updateElement p k f doc :
  stable p -> keepsKey f -> count p (updateElement k f doc) = count p doc.
Proof.
  intros Hp Hf. unfold count, updateElement. rewrite map_map. f_equal.
  apply map_ext. intros n. apply countNodes_mapNode.
  apply Hp. auto with dom.
Qed.

Lemma count_filter_prune p k cs :
  Forall (fun c => countNodes p (prune k c) <= countNodes p c) cs ->
  count p (filter (keeps k) (map (prune k) cs)) <= count p cs.
Proof.
  unfold count. intros H. induction H as [|c r Hc _ IHr]; simpl; [lia|].
  destruct (keeps k (prune k c)); simpl; lia.
Qed.

Lemma countNodes_prune p k n : countNodes p (prune k n) <= countNodes p n.
Proof.
  induction n as [e cs IH] using node_forall_ind. simpl.
  pose proof (@count_filter_prune p k cs IH) as H. unfold count in H. lia.
Qed.

Lemma count_removeElement p k doc : count p (removeElement k doc) <= count p doc.
Proof.
  apply count_filter_prune. apply Forall_forall. intros c _. apply countNodes_prune.
Qed.

Lemma count_app p l1 l2 : count p (l1 ++ l2)%list = count p l1 + count p l2.
Proof. unfold count. rewrite map_app, list_sum_app. reflexivity. Qed.

Lemma count_updFirst p (f : node -> option node) extra cs :
  Forall (fun c => forall c', f c = Some c' -> countNodes p c' = countNodes p c + extra) cs ->
  forall cs', updFirst f cs = Some cs' -> count p cs' = count p cs + extra.
Proof.
  unfold count. intros H. induction H as [|c r Hc _ IHr]; intros cs' E; simpl in E.
  - discriminate.
  - destruct (f c) as [c'|] eqn:Ec.
    + injection E as <-. simpl. rewrite (Hc c' eq_refl). lia.
    + destruct (updFirst f r) as [r'|]; [|discriminate].
      injection E as <-. simpl. rewrite (IHr r' eq_refl). lia.
Qed.

Lemma countNodes_appendUnder p i new n :
  forall n', appendUnder i new n = Some n' ->
             countNodes p n' = countNodes p n + countNodes p new.
Proof.
  induction n as [e cs IH] using node_forall_ind. intros n' E. simpl in E.
  destruct (String.eqb (elId e) i).
  - injection E as <-. simpl. rewrite map_app, list_sum_app. simpl. lia.
  - destruct (updFirst (appendUnder i new) cs) as [cs'|] eqn:Ecs; [|discriminate].
    injection E as <-. simpl.
    pose proof (@count_updFirst p (appendUnder i new) _ cs IH cs' Ecs) as H.
    unfold count in H. lia.
Qed.

Lemma count_appendToVideos p new doc :
  count p (appendToVideos new doc) = count p doc + countNodes p new.
Proof.
  unfold appendToVideos.
  destruct (updFirst (appendUnder "videos" new) doc) as [doc'|] eqn:E.
  - apply (@count_updFirst p (appendUnder "videos" new) _ doc); [|exact E].
    apply Forall_forall. intros c _ c'. apply countNodes_appendUnder.
  - rewrite count_app. unfold count at 2. simpl. lia.
Qed.

(** ** Commands that create nothing *)

Lemma noGrowth_refl w : noGrowth w w.
Proof. split; auto. Qed.

Lemma noGrowth_trans w1 w2 w3 : noGrowth w1 w2 -> noGrowth w2 w3 -> noGrowth w1 w3.
Proof.
  intros [H1 H2] [H3 H4]. split; [congruence|].
  intros p Hp. specialize (H2 p Hp). specialize (H4 p Hp). lia.
Qed.

Lemma quiet_skip : quiet skip.
Proof. intros w. apply noGrowth_refl. Qed.

Lemma quiet_seq c1 c2 : quiet c1 -> quiet c2 -> quiet (c1 ;; c2).
Proof.
  intros H1 H2 w. unfold seq. specialize (H1 w).
  destruct (c1 w) as [w'|e w']; simpl in *; [|exact H1].
  eapply noGrowth_trans; [exact H1|apply H2].
Qed.

Lemma quiet_when b c : quiet c -> quiet (when b c).
Proof. intros H. destruct b; [exact H|apply quiet_skip]. Qed.

Lemma quiet_forEach (A : Type) (f : A -> cmd) l : (forall x, quiet (f x)) -> quiet (forEach f l).
Proof.
  intros H. induction l as [|x r IH]; simpl; [apply quiet_skip|].
  apply quiet_seq; auto.
Qed.

Lemma quiet_consoleError args : quiet (consoleError args).
Proof. intros w. split; [reflexivity|]. intros p _. simpl. lia. Qed.

Lemma quiet_update k f (c : cmd) :
  keepsKey f ->
  (forall w, exists es,
      c w = Normal (mkWorld (updateElement k f (document w)) (nextNode w) (nextStream w)
                            (localVideo w) (localAudio w) es)) ->
  quiet c.
Proof.
  intros Hf Hc w. destruct (Hc w) as (es & ->). simpl. split; [reflexivity|].
  intros p Hp. simpl. rewrite count_updateElement by assumption. lia.
Qed.

Lemma quiet_setSrcObject k v : quiet (setSrcObject k v).
Proof.
  apply quiet_update with (k := k) (f := with_srcObject v); [auto with dom|].
  intros w. eexists. reflexivity.
Qed.

Lemma quiet_setDisplay k v : quiet (setDisplay k v).
Proof.
  apply quiet_update with (k := k) (f := with_display v); [auto with dom|].
  intros w. eexists. reflexivity.
Qed.

Lemma quiet_setTextContent k v : quiet (setTextContent k v).
Proof.
  apply quiet_update with (k := k) (f := with_textContent v); [auto with dom|].
  intros w. eexists. reflexivity.
Qed.

Lemma quiet_setOnloadedmetadata k v : quiet (setOnloadedmetadata k v).
Proof.
  apply quiet_update with (k := k) (f := with_onloadedmetadata v); [auto with dom|].
  intros w. eexists. reflexivity.
Qed.

Lemma quiet_remove k : quiet (remove k).
Proof.
  intros w. simpl. split; [reflexivity|]. intros p _. simpl. apply count_removeElement.
Qed.

#[local] Hint Resolve quiet_skip quiet_seq quiet_when quiet_forEach quiet_consoleError
  quiet_setSrcObject quiet_setDisplay quiet_setTextContent quiet_setOnloadedmetadata
  quiet_remove : dom.

Lemma quiet_startOrUpdateTrack trackType track participantId :
  quiet (startOrUpdateTrack trackType track participantId).
Proof.
  intros w. unfold startOrUpdateTrack.
  destruct (trackElement trackType participantId (document w)) as [trackEl|].
  - destruct (negb _); [|apply noGrowth_refl].
    destruct (persistentTrack track) as [t|]; [|apply noGrowth_refl].
    unfold newMediaStream. cbv beta iota zeta.
    match goal with
    | |- noGrowth w (worldOf (_ ?w1)) => apply (@noGrowth_trans w w1)
    end.
    + split; [reflexivity|]. intros p _. simpl. lia.
    + apply quiet_seq; auto with dom.
  - apply quiet_consoleError.
Qed.

Lemma quiet_destroyTracks trackTypes participantId :
  quiet (destroyTracks trackTypes participantId).
Proof.
  unfold destroyTracks. apply quiet_forEach. intros trackType w.
  destruct (getElementById (trackType ++ "-" ++ participantId) (document w)) as [element|].
  - apply quiet_seq; auto with dom.
  - apply noGrowth_refl.
Qed.

Lemma quiet_updateVideoUi track participantId : quiet (updateVideoUi track participantId).
Proof.
  intros w. unfold updateVideoUi.
  destruct (getElementById (containerId participantId) (document w)) as [container|];
    [|apply noGrowth_refl].
  destruct (querySelectorIn videoElement container) as [videoEl|]; [|apply noGrowth_refl].
  destruct (hidesVideo (state track)); apply quiet_setDisplay.
Qed.

Lemma quiet_updateUiForDevicesState trackType trackInfo :
  quiet (updateUiForDevicesState trackType trackInfo).
Proof.
  intros w. unfold updateUiForDevicesState.
  destruct (String.eqb trackType "video").
  - destruct (getElementById "camera-state" (document w));
      [apply quiet_setTextContent|apply noGrowth_refl].
  - destruct (String.eqb trackType "audio"); [|apply noGrowth_refl].
    destruct (getElementById "mic-state" (document w));
      [apply quiet_setTextContent|apply noGrowth_refl].
Qed.

#[local] Hint Resolve quiet_startOrUpdateTrack quiet_destroyTracks quiet_updateVideoUi
  quiet_updateUiForDevicesState : dom.

Lemma quiet_handleTrack isLocal participantId entry :
  quiet (handleTrack app isLocal participantId entry).
Proof.
  destruct entry as [trackType trackInfo]. unfold handleTrack. simpl.
  apply quiet_seq; [|auto with dom].
  destruct (persistentTrack trackInfo); auto with dom.
Qed.

(** ** Idempotent creation *)

Lemma handle_app_unfold event w :
  handleParticipantJoinedOrUpdated app event w
  = forEach (handleTrack app (local (participant event)) (session_id (participant event)))
            (tracks (participant event))
            (ensureProjections (session_id (participant event))
                               (local (participant event)) w).
Proof.
  unfold handleParticipantJoinedOrUpdated, ensureProjections, ensureAudio,
    ensureContainer, seq. simpl.
  destruct (isNone (getElementById (containerId (session_id (participant event)))
                                   (document w))); simpl;
    match goal with
    | |- context [isNone ?o && _] => destruct (isNone o && negb (local (participant event)))
    end; reflexivity.
Qed.

Lemma containerId_nonempty participantId : containerId participantId <> "".
Proof. discriminate. Qed.

Lemma audioId_nonempty participantId : audioId participantId <> "".
Proof. discriminate. Qed.

Lemma stable_idIs i : stable (idIs i).
Proof.
  intros g Hg e. unfold idIs. destruct (Hg e) as (_ & _ & Hi & _). rewrite Hi. reflexivity.
Qed.

Lemma stable_tagIs t : stable (tagIs t).
Proof.
  intros g Hg e. unfold tagIs. destruct (Hg e) as (_ & Ht & _). rewrite Ht. reflexivity.
Qed.

#[local] Hint Resolve stable_idIs stable_tagIs : dom.

Lemma countNodes_newVideoContainer p k participantId :
  countNodes p (newVideoContainer k participantId)
  = (if p (mkElement k "div" (containerId participantId) [] None "" "" None) then 1 else 0)
    + (if p (mkElement (S k) "video" "" ["video-element"] None "" "" None) then 1 else 0).
Proof. unfold newVideoContainer. cbn [countNodes map list_sum fold_right]. lia. Qed.

Lemma countNodes_newAudioElement p k participantId :
  countNodes p (newAudioElement k participantId)
  = if p (mkElement k "audio" (audioId participantId) [] None "" "" None) then 1 else 0.
Proof. unfold newAudioElement. cbn [countNodes map list_sum fold_right]. lia. Qed.

Lemma ensureContainer_atMostOne participantId i w :
  i <> "" -> atMostOne i w -> atMostOne i (ensureContainer participantId w).
Proof.
  unfold atMostOne. rewrite !length_elementsById. intros Hi H.
  assert (Hempty : String.eqb "" i = false) by (apply String.eqb_neq; congruence).
  unfold ensureContainer.
  destruct (getElementById (containerId participantId) (document w)) eqn:E;
    cbn [isNone worldOf createVideoContainer document]; [exact H|].
  rewrite count_appendToVideos, countNodes_newVideoContainer.
  unfold idIs at 2 3. cbn [elId]. rewrite Hempty.
  destruct (String.eqb (containerId participantId) i) eqn:Ei; [|lia].
  apply String.eqb_eq in Ei. subst i.
  rewrite (@getElementById_None_count _ _ Hi E). lia.
Qed.

Lemma ensureAudio_atMostOne participantId isLocal i w :
  i <> "" -> atMostOne i w -> atMostOne i (ensureAudio participantId isLocal w).
Proof.
  unfold atMostOne. rewrite !length_elementsById. intros Hi H.
  unfold ensureAudio.
  destruct (getElementById (audioId participantId) (document w)) eqn:E;
    cbn [isNone andb]; [exact H|].
  destruct isLocal; cbn [negb]; [exact H|].
  cbn [worldOf createAudioElement document].
  rewrite count_appendToVideos, countNodes_newAudioElement.
  unfold idIs at 2. cbn [elId].
  destruct (String.eqb (audioId participantId) i) eqn:Ei; [|lia].
  apply String.eqb_eq in Ei. subst i.
  rewrite (@getElementById_None_count _ _ Hi E). lia.
Qed.

Lemma ensureProjections_atMostOne participantId isLocal i w :
  i <> "" -> atMostOne i w -> atMostOne i (ensureProjections participantId isLocal w).
Proof.
  intros Hi H. unfold ensureProjections.
  apply ensureAudio_atMostOne, ensureContainer_atMostOne; auto.
Qed.

Lemma handle_atMostOne event i w :
  i <> "" -> atMostOne i w ->
  atMostOne i (worldOf (handleParticipantJoinedOrUpdated app event w)).
Proof.
  intros Hi H. rewrite handle_app_unfold.
  apply (ensureProjections_atMostOne (session_id (participant event))
                                     (local (participant event)) Hi) in H.
  revert H. generalize (ensureProjections (session_id (participant event))
                                          (local (participant event)) w).
  intros v Hv.
  destruct (@quiet_forEach _ (handleTrack app (local (participant event))
                                          (session_id (participant event)))
                           (tracks (participant event))
                           (quiet_handleTrack _ _) v) as [_ Hq].
  unfold atMostOne in *. rewrite length_elementsById in *.
  specialize (Hq (idIs i) (stable_idIs i)). lia.
Qed.

Lemma runEvents_atMostOne events i :
  i <> "" -> forall w, atMostOne i w -> atMostOne i (runEvents app events w).
Proof.
  intros Hi. unfold runEvents.
  induction events as [|ev r IH]; intros w H; simpl; [exact H|].
  apply IH, handle_atMostOne; assumption.
Qed.

Lemma matchesCompound_byTag_eqb t e :
  matchesCompound (byTag t) e = String.eqb t (tagName e).
Proof. unfold matchesCompound, byTag. simpl. rewrite !andb_true_r. reflexivity. Qed.

Lemma length_audioElements doc : length (audioElements doc) = count (tagIs "audio") doc.
Proof.
  unfold audioElements, querySelectorAll. rewrite length_map.
  rewrite <- (length_filter_walkAll (tagIs "audio") doc []).
  f_equal. apply filter_ext. intros x.
  unfold matchesAny, tagIs. cbn [existsb matchesSelector].
  rewrite matchesCompound_byTag_eqb, orb_false_r. apply String.eqb_sym.
Qed.

Lemma ensureProjections_existing participantId isLocal w :
  getElementById (containerId participantId) (document w) <> None ->
  isLocal = true \/ getElementById (audioId participantId) (document w) <> None ->
  ensureProjections participantId isLocal w = emit ParticipantCountRefreshed w.
Proof.
  intros Hc Ha. unfold ensureProjections, ensureContainer, ensureAudio.
  change (document (emit ParticipantCountRefreshed w)) with (document w).
  destruct (getElementById (containerId participantId) (document w)); [|congruence].
  cbn [isNone]. change (document (emit ParticipantCountRefreshed w)) with (document w).
  destruct Ha as [->|Ha].
  - cbn [negb]. rewrite andb_false_r. reflexivity.
  - destruct (getElementById (audioId participantId) (document w)); [|congruence].
    reflexivity.
Qed.

Lemma ensureProjections_local_audio participantId w :
  count (tagIs "audio") (document (ensureProjections participantId true w))
  = count (tagIs "audio") (document w).
Proof.
  unfold ensureProjections, ensureAudio. cbn [negb]. rewrite andb_false_r.
  unfold ensureContainer.
  change (document (emit ParticipantCountRefreshed w)) with (document w).
  destruct (isNone (getElementById (containerId participantId) (document w)));
    [|reflexivity].
  cbn [worldOf createVideoContainer document].
  change (document (emit ParticipantCountRefreshed w)) with (document w).
  rewrite count_appendToVideos, countNodes_newVideoContainer.
  unfold tagIs. cbn [tagName].
  change (String.eqb "div" "audio") with false.
  change (String.eqb "video" "audio") with false. cbv iota. lia.
Qed.

Lemma handle_noGrowth_after_ensure event w :
  noGrowth (ensureProjections (session_id (participant event))
                              (local (participant event)) w)
           (worldOf (handleParticipantJoinedOrUpdated app event w)).
Proof.
  rewrite handle_app_unfold. apply quiet_forEach. intros entry. apply quiet_handleTrack.
Qed.

Lemma sameLookups_refl w : sameLookups w w.
Proof. intros i. auto. Qed.

Lemma sameLookups_trans w1 w2 w3 :
  sameLookups w1 w2 -> sameLookups w2 w3 -> sameLookups w1 w3.
Proof.
  intros H1 H2 i. destruct (H1 i) as (A & B & C), (H2 i) as (D & E & F).
  repeat split; congruence.
Qed.

Lemma sameLookups_same_document w w' : document w' = document w -> sameLookups w w'.
Proof. intros H i. rewrite H. auto. Qed.

Lemma sameLookups_update k f w w' :
  keepsKey f -> document w' = updateElement k f (document w) -> sameLookups w w'.
Proof.
  intros Hf H i. rewrite H. unfold present, hasVideoIn, leafLabel, updateElement.
  rewrite getElementById_mapNode by auto with dom.
  destruct (getElementById i (document w)) as [c|]; simpl; [|auto].
  rewrite querySelectorIn_mapNode by auto with dom.
  rewrite childrenOf_mapNode.
  split; [reflexivity|]. split.
  - destruct (querySelectorIn videoElement c); reflexivity.
  - destruct (childrenOf c); reflexivity.
Qed.

Lemma tame_skip : tame skip.
Proof. intros w. apply sameLookups_refl. Qed.

Lemma tame_seq c1 c2 : tame c1 -> tame c2 -> tame (c1 ;; c2).
Proof.
  intros H1 H2 w. unfold seq. specialize (H1 w).
  destruct (c1 w) as [w'|e w']; simpl in *; [|exact H1].
  eapply sameLookups_trans; [exact H1|apply H2].
Qed.

Lemma tame_when b c : tame c -> tame (when b c).
Proof. intros H. destruct b; [exact H|apply tame_skip]. Qed.

Lemma tame_forEach (A : Type) (f : A -> cmd) l :
  (forall x, In x l -> tame (f x)) -> tame (forEach f l).
Proof.
  induction l as [|x r IH]; intros H; simpl; [apply tame_skip|].
  apply tame_seq; [apply H; left; reflexivity|].
  apply IH. intros y Hy. apply H. right. exact Hy.
Qed.

Lemma tame_update k f (c : cmd) :
  keepsKey f ->
  (forall w, exists w', c w = Normal w'
                        /\ document w' = updateElement k f (document w)) ->
  tame c.
Proof.
  intros Hf Hc w. destruct (Hc w) as (w' & -> & Hd). simpl.
  apply (@sameLookups_update k f w w' Hf Hd).
Qed.

Lemma tame_startOrUpdateTrack trackType track participantId :
  tame (startOrUpdateTrack trackType track participantId).
Proof.
  intros w. unfold startOrUpdateTrack.
  destruct (trackElement trackType participantId (document w)) as [el|].
  - destruct (negb _); [|apply sameLookups_refl].
    destruct (persistentTrack track) as [t|]; [|apply sameLookups_refl].
    unfold newMediaStream. cbv beta iota zeta.
    match goal with
    | |- sameLookups w (worldOf (_ ?w1)) => apply (@sameLookups_trans w w1)
    end.
    + apply sameLookups_same_document. reflexivity.
    + apply tame_seq.
      * apply tame_update with (k := nid (elOf el))
                               (f := with_srcObject (Some (mkStream (nextStream w) [t])));
          [auto with dom|]. intros v. eexists. split; reflexivity.
      * apply tame_update with (k := nid (elOf el))
                               (f := with_onloadedmetadata
                                       (Some (PlayAndLogFailure trackType participantId)));
          [auto with dom|]. intros v. eexists. split; reflexivity.
  - apply sameLookups_same_document. reflexivity.
Qed.

Lemma tame_updateVideoUi track participantId : tame (updateVideoUi track participantId).
Proof.
  intros w. unfold updateVideoUi.
  destruct (getElementById (containerId participantId) (document w)) as [c|];
    [|apply sameLookups_refl].
  destruct (querySelectorIn videoElement c) as [v|]; [|apply sameLookups_refl].
  destruct (hidesVideo (state track)).
  - apply (@sameLookups_update (nid (elOf v)) (with_display "none"));
      [auto with dom|reflexivity].
  - apply (@sameLookups_update (nid (elOf v)) (with_display ""));
      [auto with dom|reflexivity].
Qed.

Lemma tame_updateUiForDevicesState trackType trackInfo :
  tame (updateUiForDevicesState trackType trackInfo).
Proof.
  intros w. unfold updateUiForDevicesState.
  destruct (String.eqb trackType "video").
  - destruct (getElementById "camera-state" (document w)) as [label|];
      [|apply sameLookups_refl].
    apply (@sameLookups_update (nid (elOf label))
             (with_textContent ("Camera: " ++ onOff (localVideo w))));
      [auto with dom|reflexivity].
  - destruct (String.eqb trackType "audio"); [|apply sameLookups_refl].
    destruct (getElementById "mic-state" (document w)) as [label|];
      [|apply sameLookups_refl].
    apply (@sameLookups_update (nid (elOf label))
             (with_textContent ("Mic: " ++ onOff (localAudio w))));
      [auto with dom|reflexivity].
Qed.

Lemma tame_handleTrack isLocal participantId entry :
  isNone (persistentTrack (snd entry)) = false ->
  tame (handleTrack app isLocal participantId entry).
Proof.
  destruct entry as [trackType trackInfo]. cbn [snd]. intros Hlive.
  unfold handleTrack. cbn [app This.startOrUpdateTrack This.destroyTracks
    This.updateVideoUi This.updateUiForDevicesState].
  destruct (persistentTrack trackInfo) as [t|]; [|discriminate].
  apply tame_seq; [apply tame_when, tame_startOrUpdateTrack|].
  apply tame_seq; [apply tame_when, tame_updateVideoUi|].
  apply tame_when, tame_updateUiForDevicesState.
Qed.

Lemma tame_track_loop isLocal participantId entries :
  allLive entries = true ->
  tame (forEach (handleTrack app isLocal participantId) entries).
Proof.
  unfold allLive. intros H. apply tame_forEach. intros entry Hin.
  rewrite forallb_forall in H. specialize (H entry Hin).
  apply tame_handleTrack. apply negb_true_iff. exact H.
Qed.

Lemma present_count i doc :
  i <> "" -> (present i doc = true <-> 1 <= count (idIs i) doc).
Proof.
  intros Hi. rewrite <- length_elementsById. unfold present, getElementById.
  apply String.eqb_neq in Hi. rewrite Hi.
  destruct (elementsById i doc); simpl; split; intros H; try lia; congruence.
Qed.

Lemma ensureContainer_present participantId w :
  present (containerId participantId) (document (ensureContainer participantId w)) = true.
Proof.
  unfold ensureContainer.
  destruct (getElementById (containerId participantId) (document w)) eqn:E;
    cbn [isNone worldOf createVideoContainer document].
  - unfold present. rewrite E. reflexivity.
  - apply present_count; [apply containerId_nonempty|].
    rewrite count_appendToVideos, countNodes_newVideoContainer.
    unfold idIs at 2. cbn [elId]. rewrite String.eqb_refl. lia.
Qed.

Lemma ensureAudio_keeps_present participantId isLocal i w :
  i <> "" -> present i (document w) = true ->
  present i (document (ensureAudio participantId isLocal w)) = true.
Proof.
  intros Hi H. unfold ensureAudio. destruct (isNone _ && negb isLocal); [|exact H].
  cbn [worldOf createAudioElement document].
  apply (present_count _ Hi). apply (present_count _ Hi) in H.
  rewrite count_appendToVideos. lia.
Qed.

Lemma ensureAudio_present participantId w :
  present (audioId participantId) (document (ensureAudio participantId false w)) = true.
Proof.
  unfold ensureAudio.
  destruct (getElementById (audioId participantId) (document w)) eqn:E;
    cbn [isNone andb negb worldOf createAudioElement document].
  - unfold present. rewrite E. reflexivity.
  - apply present_count; [apply audioId_nonempty|].
    rewrite count_appendToVideos, countNodes_newAudioElement.
    unfold idIs at 2. cbn [elId]. rewrite String.eqb_refl. lia.
Qed.

Lemma present_true i doc : present i doc = true -> getElementById i doc <> None.
Proof. unfold present. destruct (getElementById i doc); [discriminate|discriminate]. Qed.

(** After a first invocation whose descriptors are all live, the container
    is in place, and so is the audio element of a remote participant. *)
Lemma handle_allLive_present event w :
  allLive (tracks (participant event)) = true ->
  present (containerId (session_id (participant event)))
          (document (worldOf (handleParticipantJoinedOrUpdated app event w))) = true
  /\ (local (participant event) = false ->
      present (audioId (session_id (participant event)))
              (document (worldOf (handleParticipantJoinedOrUpdated app event w))) = true).
Proof.
  intros Hlive. rewrite handle_app_unfold.
  pose proof (@tame_track_loop (local (participant event))
                (session_id (participant event)) _ Hlive
                (ensureProjections (session_id (participant event))
                                   (local (participant event)) w)) as S.
  split.
  - destruct (S (containerId (session_id (participant event)))) as (-> & _).
    unfold ensureProjections.
    apply ensureAudio_keeps_present; [apply containerId_nonempty|].
    apply ensureContainer_present.
  - intros Hremote.
    destruct (S (audioId (session_id (participant event)))) as (-> & _).
    unfold ensureProjections. rewrite Hremote. apply ensureAudio_present.
Qed.




(** Two identical invocations on [page] leave exactly one container and one
    audio element for [p1], and the second invocation changes nothing but the
    record of the count refresh. *)
Example joined_twice :
  length (elementsById (containerId "p1")
                       (document (runEvents app [remoteJoined; remoteJoined] page))) = 1
  /\ length (elementsById (audioId "p1")
                          (document (runEvents app [remoteJoined; remoteJoined] page))) = 1
  /\ document (runEvents app [remoteJoined; remoteJoined] page)
     = document (runEvents app [remoteJoined] page)
  /\ nextNode (runEvents app [remoteJoined; remoteJoined] page)
     = nextNode (runEvents app [remoteJoined] page).
Proof. repeat apply conj; vm_compute; reflexivity. Qed.

(** ** The id [destroyTracks] looks up for a video track *)

Lemma conventionalb_sound doc : conventionalb doc = true -> conventional doc.
Proof.
  unfold conventionalb, conventional. intros H x Hin.
  rewrite forallb_forall in H. apply H, Hin.
Qed.

Lemma getElementById_Some_In i doc n :
  getElementById i doc = Some n ->
  exists x, In x (walkAll [] doc) /\ snd x = n /\ elId (elOf n) = i.
Proof.
  unfold getElementById, elementsById. destruct (String.eqb i ""); [discriminate|].
  intros H.
  assert (Hin : In n (map snd (filter (hasId i) (walkAll [] doc)))).
  { destruct (map snd (filter (hasId i) (walkAll [] doc))); [discriminate|].
    injection H as ->. left. reflexivity. }
  apply in_map_iff in Hin. destruct Hin as (x & Hx & Hf).
  apply filter_In in Hf. destruct Hf as [Hin Hid].
  exists x. repeat split; auto. subst n. apply String.eqb_eq. exact Hid.
Qed.

Lemma conventionalId_video participantId :
  conventionalId ("video-" ++ participantId) = startsWith "container-" participantId.
Proof.
  unfold conventionalId.
  change (String.eqb ("video-" ++ participantId) "") with false.
  change (String.eqb ("video-" ++ participantId) "videos") with false.
  change (String.eqb ("video-" ++ participantId) "camera-state") with false.
  change (String.eqb ("video-" ++ participantId) "mic-state") with false.
  change (startsWith "video-container-" ("video-" ++ participantId))
    with (startsWith "container-" participantId).
  change (startsWith "audio-" ("video-" ++ participantId)) with false.
  cbn [orb]. apply orb_false_r.
Qed.

(** C3, as the code has it.  [destroyTracks] with the track type [video]
    looks up the id [video-{id}].  In a document whose ids follow the
    conventions, and for a participant id that does not itself begin with
    [container-], no element has that id: the call ends normally in the very
    same world, nothing detached, nothing removed, nothing logged. *)
Theorem destroyTracks_video_frame participantId w :
  conventional (document w) ->
  startsWith "container-" participantId = false ->
  getElementById ("video-" ++ participantId) (document w) = None
  /\ destroyTracks ["video"] participantId w = Normal w.
Proof.
  intros Hconv Hpid.
  assert (Hnone : getElementById ("video-" ++ participantId) (document w) = None).
  { destruct (getElementById ("video-" ++ participantId) (document w)) as [n|] eqn:E;
      [|reflexivity].
    destruct (getElementById_Some_In _ _ E) as (x & Hin & Hx & Hid).
    specialize (Hconv x Hin). rewrite Hx, Hid, conventionalId_video in Hconv.
    congruence. }
  split; [exact Hnone|].
  unfold destroyTracks, forEach, seq.
  change ("video" ++ "-" ++ participantId) with ("video-" ++ participantId).
  rewrite Hnone. reflexivity.
Qed.

Lemma conventional_inCall : conventional (document inCall).
Proof. apply conventionalb_sound. vm_compute. reflexivity. Qed.

Lemma destroyTracks_video_frame_witness :
  getElementById ("video-" ++ "p1") (document inCall) = None
  /\ destroyTracks ["video"] "p1" inCall = Normal inCall.
Proof.
  apply (@destroyTracks_video_frame "p1" inCall).
  - apply conventionalb_sound. vm_compute. reflexivity.
  - reflexivity.
Defined.

(** C3 as stated fails for a participant whose id begins with [container-]:
    [video-container-p1] is the id of the container of [p1], so
    [destroyTracks] for the participant [container-p1] and the track type
    [video] detaches and removes that container, and with it the video
    element of [p1]. *)
Lemma destroyTracks_video_collision :
  conventional (document inCall)
  /\ querySelector (videoSelector "p1") (document inCall) = Some videoOfP1
  /\ exists w',
       destroyTracks ["video"] "container-p1" inCall = Normal w'
       /\ effects w' = (effects inCall ++ [SrcObjectSet 4 None; Removed 4])%list
       /\ getElementById (containerId "p1") (document w') = None
       /\ querySelector (videoSelector "p1") (document w') = None
       /\ document w' <> document inCall.
Proof.
  split; [exact conventional_inCall|]. split; [reflexivity|].
  eexists. split; [vm_compute; reflexivity|].
  repeat apply conj; try reflexivity. vm_compute. discriminate.
Qed.

(** The conventions are an invariant of the handler and of [leave] (with the
    spec-modelled helpers doing the creating). *)

Lemma stable_unconventional : stable unconventional.
Proof.
  intros g Hg e. unfold unconventional. destruct (Hg e) as (_ & _ & Hi & _).
  rewrite Hi. reflexivity.
Qed.

Lemma filter_nil_iff (A : Type) (p : A -> bool) l :
  filter p l = [] <-> forall x, In x l -> p x = false.
Proof.
  induction l as [|a r IH]; simpl.
  - split; [intros _ x []|reflexivity].
  - destruct (p a) eqn:E.
    + split; [discriminate|]. intros H. specialize (H a (or_introl eq_refl)). congruence.
    + rewrite IH. split.
      * intros H x [<-|Hx]; auto.
      * intros H x Hx. apply H. right. exact Hx.
Qed.

Lemma conventional_count doc : conventional doc <-> count unconventional doc = 0.
Proof.
  rewrite <- (length_filter_walkAll unconventional doc []).
  rewrite length_zero_iff_nil, filter_nil_iff. unfold conventional, unconventional.
  split; intros H x Hin; specialize (H x Hin).
  - rewrite H. reflexivity.
  - apply negb_false_iff. exact H.
Qed.

Lemma conventionalId_containerId participantId :
  conventionalId (containerId participantId) = true.
Proof.
  unfold conventionalId, containerId.
  change (startsWith "video-container-" ("video-container-" ++ participantId)) with true.
  rewrite orb_true_r. reflexivity.
Qed.

Lemma conventionalId_audioId participantId : conventionalId (audioId participantId) = true.
Proof.
  unfold conventionalId, audioId.
  change (startsWith "audio-" ("audio-" ++ participantId)) with true.
  apply orb_true_r.
Qed.

Lemma ensureProjections_conventional participantId isLocal w :
  conventional (document w) ->
  conventional (document (ensureProjections participantId isLocal w)).
Proof.
  rewrite !conventional_count. intros H.
  unfold ensureProjections, ensureAudio, ensureContainer.
  change (document (emit ParticipantCountRefreshed w)) with (document w).
  assert (H2 : count unconventional
                     (document
                        (if isNone (getElementById (containerId participantId) (document w))
                         then worldOf (createVideoContainer participantId
                                         (emit ParticipantCountRefreshed w))
                         else emit ParticipantCountRefreshed w)) = 0).
  { destruct (isNone _); [|exact H].
    cbn [worldOf createVideoContainer document].
    change (document (emit ParticipantCountRefreshed w)) with (document w).
    rewrite count_appendToVideos, countNodes_newVideoContainer, H.
    unfold unconventional. cbn [elId]. rewrite conventionalId_containerId.
    reflexivity. }
  destruct (isNone _ && negb isLocal); [|exact H2].
  cbn [worldOf createAudioElement document].
  rewrite count_appendToVideos, countNodes_newAudioElement, H2.
  unfold unconventional. cbn [elId]. rewrite conventionalId_audioId. reflexivity.
Qed.

Lemma runEvents_conventional events :
  forall w, conventional (document w) -> conventional (document (runEvents app events w)).
Proof.
  unfold runEvents. induction events as [|ev r IH]; intros w H; simpl; [exact H|].
  apply IH.
  apply (ensureProjections_conventional (session_id (participant ev))
                                        (local (participant ev))) in H.
  destruct (handle_noGrowth_after_ensure ev w) as [_ Hq].
  specialize (Hq unconventional stable_unconventional).
  rewrite conventional_count in *. lia.
Qed.

Lemma leave_conventional r w :
  conventional (document w) -> conventional (document (worldOf (leave r w))).
Proof.
  intros H. destruct r as [|reason]; [|exact H].
  unfold leave. rewrite leave_loop. simpl.
  intros x Hin. destruct (walkAll_removeAll _ _ _ _ Hin) as (y & Hy & _ & He & _).
  rewrite <- He. apply H, Hy.
Qed.

(** ** Losing a track *)

(** What [destroyTracks] does for an audio track: the participant's audio
    element has its source detached and is then removed; nothing with its
    identity is left in the document. *)
Lemma destroyTracks_audio_teardown participantId w audioEl :
  getElementById (audioId participantId) (document w) = Some audioEl ->
  exists w',
    destroyTracks ["audio"] participantId w = Normal w'
    /\ effects w' = (effects w ++ teardown audioEl)%list
    /\ forall x, In x (walkAll [] (document w')) ->
                 nid (elOf (snd x)) <> nid (elOf audioEl).
Proof.
  intros H. unfold destroyTracks, forEach.
  change ("audio" ++ "-" ++ participantId) with (audioId participantId).
  unfold seq at 1. rewrite H.
  eexists. split; [reflexivity|]. simpl. split.
  - rewrite <- app_assoc. reflexivity.
  - intros x Hin. rewrite removeElement_update in Hin by auto with dom.
    destruct (walkAll_removeElement _ _ _ _ Hin) as (_ & _ & _ & _ & Hn). exact Hn.
Qed.

(** C1 at a failing input.  In [inCall] the video element of [p1] is bound
    to a stream.  The next snapshot of [p1] has a video descriptor without
    live handle.  The handler ends normally; the video element is still in
    the document and still bound to its stream (it is only hidden), and no
    source was detached and no element removed: [destroyTracks] looked up
    the id [video-p1], which no element has. *)
Theorem video_track_loss_keeps_element :
  exists w',
    handleParticipantJoinedOrUpdated app videoLost inCall = Normal w'
    /\ querySelector (videoSelector "p1") (document w')
       = Some (mapNode (with_display "none") videoOfP1)
    /\ srcObject (elOf (mapNode (with_display "none") videoOfP1)) = Some (mkStream 0 [7])
    /\ effects w' = (effects inCall ++ [ParticipantCountRefreshed])%list.
Proof.
  eexists. split; [vm_compute; reflexivity|].
  repeat apply conj; vm_compute; reflexivity.
Qed.

(** The audio half of the same scenario works as described: the audio
    element of [p1] is detached, then removed. *)
Example audio_track_loss_removes_element :
  exists w',
    handleParticipantJoinedOrUpdated app audioLost inCall = Normal w'
    /\ getElementById (audioId "p1") (document w') = None
    /\ effects w'
       = (effects inCall ++ [ParticipantCountRefreshed; SrcObjectSet 6 None; Removed 6])%list.
Proof.
  eexists. split; [vm_compute; reflexivity|].
  repeat apply conj; vm_compute; reflexivity.
Qed.

(** ** An exception that leaves the handler *)

Example inCall_reached : runEvents app [remoteJoined] page = inCall.
Proof. vm_compute. reflexivity. Qed.

Example afterLeave_reached : worldOf (leave Fulfilled inCall) = afterLeave.
Proof. vm_compute. reflexivity. Qed.

Example afterLeave_container :
  getElementById (containerId "p1") (document afterLeave)
  = Some (Node (plain 4 "div" "video-container-p1") []).
Proof. vm_compute. reflexivity. Qed.

(** C2 at a failing input.  After a successful [leave] the container of [p1]
    has lost its video element.  The next snapshot of [p1] makes
    [startOrUpdateTrack] log the missing element and return, as described;
    [updateVideoUi] then repeats the lookup without a guard and dereferences
    [null]: a [TypeError] leaves the handler, and the audio entry of the
    snapshot is never processed (the new audio element stays unbound). *)
Theorem handler_throws_on_missing_video_element :
  exists w',
    handleParticipantJoinedOrUpdated app remoteJoined afterLeave
    = Thrown (TypeError "null has no property style") w'
    /\ effects w'
       = (effects afterLeave
            ++ [ParticipantCountRefreshed;
                ConsoleError [missingElementMessage "video" "p1"]])%list
    /\ getElementById (audioId "p1") (document w')
       = Some (newAudioElement 7 "p1").
Proof.
  eexists. split; [vm_compute; reflexivity|].
  repeat apply conj; vm_compute; reflexivity.
Qed.

(** The same exception from [updateVideoUi] alone. *)
Example updateVideoUi_throws :
  updateVideoUi (mkTrack "playable" (Some 7)) "p1" afterLeave
  = Thrown (TypeError "null has no property style") afterLeave.
Proof. vm_compute. reflexivity. Qed.

(** ** Element identities

    Updates and removals address an element by its identity.  This is the
    DOM's behaviour in a world whose elements have distinct identities, all
    of them older than the next one to be created; the handler and [leave]
    keep the world that way. *)

Lemma stable_nidIs k : stable (nidIs k).
Proof.
  intros g Hg e. unfold nidIs. destruct (Hg e) as (Hn & _). rewrite Hn. reflexivity.
Qed.

Lemma noGrowth_wellFormed w w' : noGrowth w w' -> wellFormed w -> wellFormed w'.
Proof.
  intros [Hn Hq] H k. specialize (Hq (nidIs k) (stable_nidIs k)). specialize (H k).
  rewrite Hn. lia.
Qed.

Lemma ensureContainer_wellFormed participantId w :
  wellFormed w -> wellFormed (ensureContainer participantId w).
Proof.
  intros H. unfold ensureContainer. destruct (isNone _); [|exact H].
  intros k. specialize (H k). cbn [worldOf createVideoContainer document nextNode].
  rewrite count_appendToVideos, countNodes_newVideoContainer.
  unfold nidIs at 2 3. cbn [nid].
  destruct (Nat.ltb_spec k (nextNode w)), (Nat.ltb_spec k (S (S (nextNode w)))),
    (Nat.eqb_spec (nextNode w) k), (Nat.eqb_spec (S (nextNode w)) k); lia.
Qed.

Lemma ensureAudio_wellFormed participantId isLocal w :
  wellFormed w -> wellFormed (ensureAudio participantId isLocal w).
Proof.
  intros H. unfold ensureAudio. destruct (isNone _ && negb isLocal); [|exact H].
  intros k. specialize (H k). cbn [worldOf createAudioElement document nextNode].
  rewrite count_appendToVideos, countNodes_newAudioElement.
  unfold nidIs at 2. cbn [nid].
  destruct (Nat.ltb_spec k (nextNode w)), (Nat.ltb_spec k (S (nextNode w))),
    (Nat.eqb_spec (nextNode w) k); lia.
Qed.

Lemma handle_wellFormed event w :
  wellFormed w -> wellFormed (worldOf (handleParticipantJoinedOrUpdated app event w)).
Proof.
  intros H. apply (noGrowth_wellFormed (handle_noGrowth_after_ensure event w)).
  unfold ensureProjections. apply ensureAudio_wellFormed, ensureContainer_wellFormed.
  exact H.
Qed.

Lemma runEvents_wellFormed events :
  forall w, wellFormed w -> wellFormed (runEvents app events w).
Proof.
  unfold runEvents. induction events as [|ev r IH]; intros w H; simpl; [exact H|].
  apply IH, handle_wellFormed, H.
Qed.

Lemma quiet_leave r : quiet (leave r).
Proof.
  intros w. destruct r as [|reason]; [|apply quiet_consoleError].
  unfold leave. apply quiet_forEach. intros el. apply quiet_seq; auto with dom.
Qed.

Lemma leave_wellFormed r w : wellFormed w -> wellFormed (worldOf (leave r w)).
Proof. apply noGrowth_wellFormed, quiet_leave. Qed.

Lemma wellFormed_page : wellFormed page.
Proof.
  intros k. do 4 (destruct k as [|k]; [vm_compute; lia|]).
  vm_compute. lia.
Qed.

(** * Further properties of the script *)

(** ** The device labels *)

Lemma lookup_after_update i k f doc n :
  keepsKey f ->
  getElementById i doc = Some n ->
  nid (elOf n) = k ->
  exists n',
    getElementById i (updateElement k f doc) = Some n'
    /\ nid (elOf n') = k
    /\ elOf n' = f (elOf n).
Proof.
  intros Hf Hn Hk. exists (mapNode (onElement k f) n). unfold updateElement.
  rewrite getElementById_mapNode, Hn by auto with dom. simpl.
  rewrite elOf_mapNode. unfold onElement. rewrite <- Hk, Nat.eqb_refl.
  destruct (Hf (elOf n)) as (Hnid & _). auto.
Qed.

Lemma updateUiForDevicesState_video trackInfo w label :
  getElementById "camera-state" (document w) = Some label ->
  updateUiForDevicesState "video" trackInfo w
  = setTextContent (nid (elOf label)) ("Camera: " ++ onOff (localVideo w)) w.
Proof. intros H. unfold updateUiForDevicesState. simpl. rewrite H. reflexivity. Qed.

Lemma updateUiForDevicesState_audio trackInfo w label :
  getElementById "mic-state" (document w) = Some label ->
  updateUiForDevicesState "audio" trackInfo w
  = setTextContent (nid (elOf label)) ("Mic: " ++ onOff (localAudio w)) w.
Proof. intros H. unfold updateUiForDevicesState. simpl. rewrite H. reflexivity. Qed.

(** X2.  With the two labels on the page, [updateUiForDevicesState] writes
    the SDK's current enablement into the label of the track type:
    [Camera: On/Off] from [call.localVideo()] for [video], [Mic: On/Off]
    from [call.localAudio()] for [audio], whatever the descriptor says; the
    enablement itself is not changed and nothing is logged. *)
Theorem device_label_reflects_enablement trackInfo w camera mic :
  getElementById "camera-state" (document w) = Some camera ->
  getElementById "mic-state" (document w) = Some mic ->
  (exists w' camera',
     updateUiForDevicesState "video" trackInfo w = Normal w'
     /\ getElementById "camera-state" (document w') = Some camera'
     /\ nid (elOf camera') = nid (elOf camera)
     /\ textContent (elOf camera') = "Camera: " ++ onOff (localVideo w)
     /\ localVideo w' = localVideo w /\ effects w' = effects w)
  /\
  (exists w' mic',
     updateUiForDevicesState "audio" trackInfo w = Normal w'
     /\ getElementById "mic-state" (document w') = Some mic'
     /\ nid (elOf mic') = nid (elOf mic)
     /\ textContent (elOf mic') = "Mic: " ++ onOff (localAudio w)
     /\ localAudio w' = localAudio w /\ effects w' = effects w).
Proof.
  intros Hc Hm. split.
  - rewrite (updateUiForDevicesState_video trackInfo w Hc).
    destruct (@lookup_after_update "camera-state" (nid (elOf camera))
                (with_textContent ("Camera: " ++ onOff (localVideo w)))
                (document w) camera (keepsKey_textContent _) Hc eq_refl)
      as (n' & H1 & H2 & H3).
    eexists. exists n'. split; [reflexivity|].
    unfold with_document. cbn [document localVideo localAudio effects].
    rewrite H1, H2, H3. cbn [textContent with_textContent]. auto.
  - rewrite (updateUiForDevicesState_audio trackInfo w Hm).
    destruct (@lookup_after_update "mic-state" (nid (elOf mic))
                (with_textContent ("Mic: " ++ onOff (localAudio w)))
                (document w) mic (keepsKey_textContent _) Hm eq_refl)
      as (n' & H1 & H2 & H3).
    eexists. exists n'. split; [reflexivity|].
    unfold with_document. cbn [document localVideo localAudio effects].
    rewrite H1, H2, H3. cbn [textContent with_textContent]. auto.
Qed.

Lemma device_label_reflects_enablement_witness :
  exists w' camera',
    updateUiForDevicesState "video" (mkTrack "off" None) page = Normal w'
    /\ getElementById "camera-state" (document w') = Some camera'
    /\ textContent (elOf camera') = "Camera: On".
Proof.
  destruct (@device_label_reflects_enablement (mkTrack "off" None) page
              (Node (plain 2 "span" "camera-state") [])
              (Node (plain 3 "span" "mic-state") []) eq_refl eq_refl)
    as [(w' & camera' & H1 & H2 & _ & H4 & _) _].
  exists w', camera'. auto.
Defined.

(** X4.  [updateUiForDevicesState] throws exactly when the label of the
    track type is not on the page ([camera-state] for [video], [mic-state]
    for [audio]); it then leaves the world as it was.  For any other track
    type it does nothing. *)
Theorem updateUiForDevicesState_throws_iff trackType trackInfo w :
  (forall e w', updateUiForDevicesState trackType trackInfo w = Thrown e w' -> w' = w)
  /\ ((exists e w', updateUiForDevicesState trackType trackInfo w = Thrown e w')
      <-> (trackType = "video" /\ present "camera-state" (document w) = false)
          \/ (trackType = "audio" /\ present "mic-state" (document w) = false))
  /\ (trackType <> "video" -> trackType <> "audio" ->
      updateUiForDevicesState trackType trackInfo w = Normal w).
Proof.
  unfold updateUiForDevicesState, present.
  destruct (String.eqb_spec trackType "video") as [Hv|Hv].
  - destruct (getElementById "camera-state" (document w)) as [label|]; simpl.
    + split; [discriminate|]. split; [|congruence].
      split; [intros (e & w' & H); discriminate|].
      intros [[_ H]|[H _]]; [discriminate|]. subst trackType. discriminate.
    + split; [intros e w' H; injection H; auto|]. split; [|congruence].
      split; [auto|]. intros _. eauto.
  - destruct (String.eqb_spec trackType "audio") as [Ha|Ha].
    + destruct (getElementById "mic-state" (document w)) as [label|]; simpl.
      * split; [discriminate|]. split; [|congruence].
        split; [intros (e & w' & H); discriminate|].
        intros [[H _]|[_ H]]; [congruence|discriminate].
      * split; [intros e w' H; injection H; auto|]. split; [|congruence].
        split; [auto|]. intros _. eauto.
    + split; [discriminate|]. split; [|reflexivity].
      split; [intros (e & w' & H); discriminate|].
      intros [[H _]|[H _]]; congruence.
Qed.

(** ** Visibility: [updateVideoUi] *)

Lemma mapNode_pointwise g h n : (forall e, g e = h e) -> mapNode g n = mapNode h n.
Proof.
  intros H. induction n as [e cs IH] using node_forall_ind. simpl. rewrite H. f_equal.
  induction IH as [|c r Hc _ IHr]; simpl; [reflexivity|]. rewrite Hc, IHr. reflexivity.
Qed.

Lemma mapNode_mapNode g h n : mapNode g (mapNode h n) = mapNode (fun e => g (h e)) n.
Proof.
  induction n as [e cs IH] using node_forall_ind. simpl. f_equal. rewrite map_map.
  induction IH as [|c r Hc _ IHr]; simpl; [reflexivity|]. rewrite Hc, IHr. reflexivity.
Qed.

(** Two updates of the same element amount to one. *)
Lemma updateElement_twice k f1 f2 doc :
  keepsNid f1 ->
  updateElement k f2 (updateElement k f1 doc) = updateElement k (fun e => f2 (f1 e)) doc.
Proof.
  intros H1. unfold updateElement. rewrite map_map. apply map_ext. intros n.
  rewrite mapNode_mapNode. apply mapNode_pointwise. intros e. unfold onElement.
  destruct (Nat.eqb (nid e) k) eqn:E; [|rewrite E; reflexivity].
  rewrite H1, E. reflexivity.
Qed.

Lemma updateVideoUi_found track participantId w container videoEl :
  getElementById (containerId participantId) (document w) = Some container ->
  querySelectorIn videoElement container = Some videoEl ->
  updateVideoUi track participantId w
  = setDisplay (nid (elOf videoEl)) (displayFor (state track)) w.
Proof.
  intros Hc Hv. unfold updateVideoUi, displayFor. rewrite Hc, Hv.
  destruct (hidesVideo (state track)); reflexivity.
Qed.

(** What [updateVideoUi] needs in order not to throw. *)
Lemma updateVideoUi_Normal track participantId w w' :
  updateVideoUi track participantId w = Normal w' ->
  exists container videoEl,
    getElementById (containerId participantId) (document w) = Some container
    /\ querySelectorIn videoElement container = Some videoEl
    /\ w' = with_document (updateElement (nid (elOf videoEl))
                                         (with_display (displayFor (state track)))
                                         (document w)) w.
Proof.
  intros H.
  destruct (getElementById (containerId participantId) (document w)) as [c|] eqn:Hc;
    [|unfold updateVideoUi in H; rewrite Hc in H; discriminate].
  destruct (querySelectorIn videoElement c) as [v|] eqn:Hv;
    [|unfold updateVideoUi in H; rewrite Hc, Hv in H; discriminate].
  rewrite (updateVideoUi_found track participantId w Hc Hv) in H.
  injection H as <-. eauto.
Qed.

Lemma keepsNid_display v : keepsNid (with_display v).
Proof. intros e; reflexivity. Qed.

(** X5.  The display written by [updateVideoUi] depends on the latest state
    only: running it for a second descriptor after a first one gives the same
    result as running it for the second alone.  In particular running it
    twice for the same descriptor is the same as running it once. *)
Theorem updateVideoUi_last_state_wins track1 track2 participantId w w1 :
  updateVideoUi track1 participantId w = Normal w1 ->
  updateVideoUi track2 participantId w1 = updateVideoUi track2 participantId w.
Proof.
  intros H. apply updateVideoUi_Normal in H. destruct H as (c & v & Hc & Hv & ->).
  set (g := onElement (nid (elOf v)) (with_display (displayFor (state track1)))).
  assert (Hg : keepsKey g) by (subst g; auto with dom).
  assert (Hc1 : getElementById (containerId participantId)
                               (updateElement (nid (elOf v))
                                  (with_display (displayFor (state track1))) (document w))
                = Some (mapNode g c)).
  { unfold updateElement. fold g. rewrite getElementById_mapNode, Hc by exact Hg.
    reflexivity. }
  assert (Hv1 : querySelectorIn videoElement (mapNode g c) = Some (mapNode g v)).
  { rewrite querySelectorIn_mapNode, Hv by exact Hg. reflexivity. }
  rewrite (@updateVideoUi_found
             track2 participantId
             (with_document (updateElement (nid (elOf v))
                                           (with_display (displayFor (state track1)))
                                           (document w)) w)
             (mapNode g c) (mapNode g v) Hc1 Hv1).
  rewrite (updateVideoUi_found track2 participantId w Hc Hv).
  assert (Hn : nid (elOf (mapNode g v)) = nid (elOf v)).
  { rewrite elOf_mapNode. destruct (Hg (elOf v)) as (Hn & _). exact Hn. }
  rewrite Hn. unfold setDisplay, with_document. cbn [document nextNode nextStream
    localVideo localAudio effects].
  rewrite updateElement_twice by apply keepsNid_display. reflexivity.
Qed.

Lemma updateVideoUi_last_state_wins_witness :
  exists w1,
    updateVideoUi (mkTrack "blocked" (Some 7)) "p1" inCall = Normal w1
    /\ updateVideoUi (mkTrack "playable" (Some 7)) "p1" w1
       = updateVideoUi (mkTrack "playable" (Some 7)) "p1" inCall.
Proof.
  eexists. split; [vm_compute; reflexivity|].
  apply (@updateVideoUi_last_state_wins (mkTrack "blocked" (Some 7))
                                        (mkTrack "playable" (Some 7)) "p1" inCall).
  vm_compute. reflexivity.
Defined.

Lemma bindings_update k f doc :
  (forall e, srcObject (f e) = srcObject e) ->
  bindings (updateElement k f doc) = bindings doc.
Proof.
  intros H. unfold bindings, updateElement.
  change (@nil element) with (map (onElement k f) []) at 1.
  rewrite walkAll_mapNode, map_map. apply map_ext. intros x.
  unfold lift. simpl. rewrite elOf_mapNode. unfold onElement.
  destruct (Nat.eqb (nid (elOf (snd x))) k); [apply H|reflexivity].
Qed.

(** X6.  [updateVideoUi] hides or shows, and does nothing else: when it
    returns, every element of the document is bound to the source it was
    bound to before, no element was added or removed, nothing was logged and
    no stream was created. *)
Theorem updateVideoUi_keeps_bindings track participantId w w' :
  updateVideoUi track participantId w = Normal w' ->
  bindings (document w') = bindings (document w)
  /\ (forall p, stable p -> count p (document w') = count p (document w))
  /\ effects w' = effects w
  /\ nextStream w' = nextStream w.
Proof.
  intros H. apply updateVideoUi_Normal in H. destruct H as (c & v & _ & _ & ->).
  unfold with_document. cbn [document effects nextStream]. split; [|split; [|auto]].
  - apply bindings_update. reflexivity.
  - intros p Hp. apply count_updateElement; auto with dom.
Qed.

Lemma updateVideoUi_keeps_bindings_witness :
  exists w',
    updateVideoUi (mkTrack "off" None) "p1" inCall = Normal w'
    /\ bindings (document w') = bindings (document inCall)
    /\ effects w' = effects inCall.
Proof.
  eexists. split; [vm_compute; reflexivity|].
  destruct (@updateVideoUi_keeps_bindings (mkTrack "off" None) "p1" inCall _ eq_refl)
    as (H1 & _ & H3 & _).
  split; [exact H1|exact H3].
Defined.

(** X7.  [updateVideoUi] throws exactly when the participant's container is
    missing or has no [video.video-element] inside; it then leaves the world
    as it was. *)
Theorem updateVideoUi_throws_iff track participantId w :
  (forall e w', updateVideoUi track participantId w = Thrown e w' -> w' = w)
  /\ ((exists e w', updateVideoUi track participantId w = Thrown e w')
      <-> hasVideoIn (containerId participantId) (document w) = false).
Proof.
  unfold updateVideoUi, hasVideoIn.
  destruct (getElementById (containerId participantId) (document w)) as [c|].
  - destruct (querySelectorIn videoElement c) as [v|]; simpl.
    + split.
      * intros e w' H. destruct (hidesVideo (state track)); discriminate.
      * split; [|discriminate].
        intros (e & w' & H). destruct (hidesVideo (state track)); discriminate.
    + split; [intros e w' H; injection H; auto|]. split; eauto.
  - split; [intros e w' H; injection H; auto|]. split; eauto.
Qed.

(** ** Reconciliation once more: [startOrUpdateTrack] *)

(** X8.  Reconciling is idempotent: with the target element in place and a
    live handle in the descriptor, a second call with the same arguments
    finds the handle bound and changes nothing, whether or not the first
    call had to rebind.  The target element is the one the selector model
    finds ([selectorSafe]). *)
Theorem startOrUpdateTrack_idempotent trackType track participantId w trackEl t :
  selectorSafe trackType participantId = true ->
  trackElement trackType participantId (document w) = Some trackEl ->
  persistentTrack track = Some t ->
  exists w1,
    startOrUpdateTrack trackType track participantId w = Normal w1
    /\ startOrUpdateTrack trackType track participantId w1 = Normal w1.
Proof.
  intros _ Hel Ht.
  destruct (includesTrack (option_map getTracks (srcObject (elOf trackEl))) (Some t))
    eqn:Hinc.
  - exists w. assert (H : startOrUpdateTrack trackType track participantId w = Normal w).
    { unfold startOrUpdateTrack. rewrite Hel, Ht, Hinc. reflexivity. }
    auto.
  - eexists. split.
    + unfold startOrUpdateTrack. rewrite Hel, Ht, Hinc. reflexivity.
    + unfold startOrUpdateTrack at 1. unfold with_document, emit.
      cbn [document].
      rewrite !trackElement_update by auto with dom. rewrite Hel.
      cbn [option_map]. rewrite !elOf_mapNode. unfold onElement.
      cbn [nid with_srcObject with_onloadedmetadata srcObject].
      rewrite Nat.eqb_refl. cbn [nid with_srcObject with_onloadedmetadata srcObject].
      rewrite Nat.eqb_refl. cbn [nid with_srcObject with_onloadedmetadata srcObject
        option_map getTracks].
      rewrite Ht. cbn [includesTrack existsb]. rewrite Nat.eqb_refl. reflexivity.
Qed.

Lemma startOrUpdateTrack_idempotent_witness :
  exists w1,
    startOrUpdateTrack "video" (mkTrack "playable" (Some 9)) "p1" inCall = Normal w1
    /\ startOrUpdateTrack "video" (mkTrack "playable" (Some 9)) "p1" w1 = Normal w1.
Proof.
  apply (@startOrUpdateTrack_idempotent "video" (mkTrack "playable" (Some 9)) "p1"
                                         inCall videoOfP1 9).
  - reflexivity.
  - reflexivity.
  - reflexivity.
Defined.

(** X9.  Within the selector model ([selectorSafe]: the track type is not
    [video], or the participant id consists of letters, digits, [-] and [_]),
    [startOrUpdateTrack] throws exactly when the target element is in place
    and the descriptor has no live handle (the stream cannot be built from
    [undefined]); it then leaves the world as it was.  With a live handle it
    always returns. *)
Theorem startOrUpdateTrack_throws_iff trackType track participantId w :
  selectorSafe trackType participantId = true ->
  (forall e w', startOrUpdateTrack trackType track participantId w = Thrown e w' -> w' = w)
  /\ ((exists e w', startOrUpdateTrack trackType track participantId w = Thrown e w')
      <-> trackElement trackType participantId (document w) <> None
          /\ persistentTrack track = None).
Proof.
  intros _. unfold startOrUpdateTrack.
  destruct (trackElement trackType participantId (document w)) as [el|].
  - destruct (persistentTrack track) as [t|].
    + destruct (includesTrack _ (Some t)); simpl.
      * split; [discriminate|]. split; [intros (e & w' & H); discriminate|].
        intros [_ H]; discriminate.
      * split; [discriminate|]. split; [intros (e & w' & H); discriminate|].
        intros [_ H]; discriminate.
    + assert (Hf : includesTrack (option_map getTracks (srcObject (elOf el))) None = false)
        by (destruct (option_map getTracks (srcObject (elOf el))); reflexivity).
      rewrite Hf. simpl.
      split; [intros e w' H; injection H; auto|].
      split; [intros _; split; [discriminate|reflexivity]|]. intros _. eauto.
  - split; [discriminate|]. split; [intros (e & w' & H); discriminate|].
    intros [H _]. congruence.
Qed.

(** ** Teardown: [destroyTracks] *)

Lemma present_false i doc : present i doc = false <-> getElementById i doc = None.
Proof.
  unfold present. destruct (getElementById i doc); simpl; split; congruence.
Qed.

(** X10.  [destroyTracks] is safe on absent elements: when no element
    carries the id [{trackType}-{participantId}] for any of the requested
    track types, the call returns with the world exactly as it was. *)
Theorem destroyTracks_absent trackTypes participantId w :
  forallb (fun trackType => negb (present (trackType ++ "-" ++ participantId) (document w)))
          trackTypes = true ->
  destroyTracks trackTypes participantId w = Normal w.
Proof.
  unfold destroyTracks. induction trackTypes as [|trackType r IH]; intros H.
  - reflexivity.
  - cbn [forallb] in H. apply andb_true_iff in H. destruct H as [H1 H2].
    apply negb_true_iff, present_false in H1.
    cbn [forEach]. unfold seq at 1. rewrite H1. apply IH, H2.
Qed.

Lemma destroyTracks_absent_step trackType participantId w :
  present (trackType ++ "-" ++ participantId) (document w) = false ->
  destroyTracks [trackType] participantId w = Normal w.
Proof.
  intros H. apply present_false in H. unfold destroyTracks, forEach, seq.
  rewrite H. reflexivity.
Qed.

Lemma destroyTracks_absent_witness :
  destroyTracks ["video"; "screenVideo"] "p1" inCall = Normal inCall.
Proof.
  apply (@destroyTracks_absent ["video"; "screenVideo"] "p1" inCall). reflexivity.
Defined.

Lemma forEach_cons_one (A : Type) (f : A -> cmd) x r w :
  forEach f (x :: r) w
  = match forEach f [x] w with
    | Normal w1 => forEach f r w1
    | Thrown e w1 => Thrown e w1
    end.
Proof. cbn [forEach]. unfold seq, skip. destruct (f x w); reflexivity. Qed.

Lemma destroyTracks_one trackType participantId w :
  destroyTracks [trackType] participantId w
  = match getElementById (trackType ++ "-" ++ participantId) (document w) with
    | Some element =>
        Normal (emit (Removed (nid (elOf element)))
                  (with_document
                     (removeElement (nid (elOf element)) (document w))
                     (emit (SrcObjectSet (nid (elOf element)) None) w)))
    | None => Normal w
    end.
Proof.
  unfold destroyTracks, forEach, seq.
  destruct (getElementById (trackType ++ "-" ++ participantId) (document w)) as [el|];
    [|reflexivity].
  unfold setSrcObject, remove, skip, with_document, emit.
  cbn [document nextNode nextStream localVideo localAudio effects].
  rewrite removeElement_update by auto with dom. reflexivity.
Qed.

Lemma hd_error_singleton (A : Type) (l : list A) x :
  hd_error l = Some x -> length l <= 1 -> l = [x].
Proof.
  destruct l as [|a [|b r]]; simpl; intros H Hl; try discriminate; [|lia].
  injection H as ->. reflexivity.
Qed.

(** X11.  Where the looked-up id is carried by at most one element,
    [destroyTracks] makes it vanish: afterwards no element has the id, and
    destroying again changes nothing. *)
Theorem destroyTracks_then_gone trackType participantId w :
  atMostOne (trackType ++ "-" ++ participantId) w ->
  exists w',
    destroyTracks [trackType] participantId w = Normal w'
    /\ present (trackType ++ "-" ++ participantId) (document w') = false
    /\ destroyTracks [trackType] participantId w' = Normal w'.
Proof.
  intros Hone. set (i := trackType ++ "-" ++ participantId) in *.
  assert (Hgone : forall w',
             destroyTracks [trackType] participantId w = Normal w' ->
             getElementById i (document w') = None).
  { intros w' H. rewrite destroyTracks_one in H. fold i in H.
    destruct (getElementById i (document w)) as [el|] eqn:E.
    - injection H as <-. unfold with_document, emit. cbn [document].
      destruct (getElementById i (removeElement (nid (elOf el)) (document w)))
        as [n|] eqn:E'; [|reflexivity].
      exfalso.
      destruct (getElementById_Some_In _ _ E') as (x & Hin & Hx & Hid).
      destruct (walkAll_removeElement _ _ _ _ Hin) as (y & Hy & _ & He & Hn).
      unfold getElementById in E. destruct (String.eqb i ""); [discriminate|].
      apply hd_error_singleton in E; [|exact Hone].
      assert (Hmem : In (snd y) (elementsById i (document w))).
      { unfold elementsById. apply in_map, filter_In. split; [exact Hy|].
        unfold hasId. rewrite He, Hx, Hid. apply String.eqb_refl. }
      rewrite E in Hmem. destruct Hmem as [Hmem|[]].
      apply Hn. rewrite <- He, <- Hmem. reflexivity.
    - injection H as <-. exact E. }
  destruct (destroyTracks [trackType] participantId w) as [w'|e w'] eqn:Hd.
  - specialize (Hgone w' eq_refl). exists w'. split; [reflexivity|].
    split; [apply present_false, Hgone|].
    rewrite destroyTracks_one. fold i. rewrite Hgone. reflexivity.
  - rewrite destroyTracks_one in Hd.
    destruct (getElementById (trackType ++ "-" ++ participantId) (document w));
      discriminate.
Qed.

Lemma destroyTracks_then_gone_witness :
  exists w',
    destroyTracks ["audio"] "p1" inCall = Normal w'
    /\ present ("audio" ++ "-" ++ "p1") (document w') = false
    /\ destroyTracks ["audio"] "p1" w' = Normal w'.
Proof.
  apply (@destroyTracks_then_gone "audio" "p1" inCall).
  unfold atMostOne. vm_compute. lia.
Defined.

(** X12.  [destroyTracks] never throws and never logs.  It tears down a list
    of elements [found], at most one per requested track type: each of them
    is an element of the document the call started with and carries the id
    [{trackType}-{participantId}] of a requested track type; the record grows
    by, for each of them in turn, the detaching of the source immediately
    followed by the removal; and the document it leaves is the old one with
    exactly these elements removed.  It creates neither elements nor streams
    and leaves the SDK alone. *)
Theorem destroyTracks_effects trackTypes participantId w :
  exists w' found,
    destroyTracks trackTypes participantId w = Normal w'
    /\ effects w' = (effects w ++ flat_map teardown found)%list
    /\ document w' = removeAll (map nidOf found) (document w)
    /\ Forall (fun el =>
                 exists trackType x,
                   In trackType trackTypes
                   /\ elId (elOf el) = trackType ++ "-" ++ participantId
                   /\ In x (walkAll [] (document w))
                   /\ elOf (snd x) = elOf el) found
    /\ length found <= length trackTypes
    /\ nextNode w' = nextNode w /\ nextStream w' = nextStream w
    /\ localVideo w' = localVideo w /\ localAudio w' = localAudio w.
Proof.
  revert w. induction trackTypes as [|trackType r IH]; intros w.
  - exists w, []. simpl. rewrite app_nil_r. repeat split; auto.
  - assert (Hcons : destroyTracks (trackType :: r) participantId w
                    = match destroyTracks [trackType] participantId w with
                      | Normal w1 => destroyTracks r participantId w1
                      | Thrown e w1 => Thrown e w1
                      end).
    { unfold destroyTracks. apply forEach_cons_one. }
    rewrite Hcons, destroyTracks_one.
    destruct (getElementById (trackType ++ "-" ++ participantId) (document w))
      as [el|] eqn:Hel.
    + match goal with |- context [destroyTracks r participantId ?w1] =>
        destruct (IH w1) as (w' & found & H1 & H2 & Hd & Hf & H3 & H4 & H5 & H6 & H7)
      end.
      exists w', (el :: found). split; [exact H1|].
      rewrite H2, Hd, H4, H5, H6, H7. unfold emit, with_document.
      cbn [document effects nextNode nextStream localVideo localAudio flat_map teardown
             length map].
      rewrite <- !app_assoc.
      split; [reflexivity|]. split; [reflexivity|]. split.
      * constructor.
        -- destruct (getElementById_Some_In _ _ Hel) as (x & Hin & Hx & Hid).
           exists trackType, x. subst el. repeat split; auto. left. reflexivity.
        -- eapply Forall_impl; [|exact Hf].
           intros el' (tt & x & Htt & Hid & Hin & Hx).
           unfold emit, with_document in Hin. cbn [document] in Hin.
           destruct (walkAll_removeElement _ _ _ _ Hin) as (y & Hy & _ & He & _).
           exists tt, y. split; [right; exact Htt|]. split; [exact Hid|].
           split; [exact Hy|]. congruence.
      * repeat split; auto. simpl. lia.
    + destruct (IH w) as (w' & found & H1 & H2 & Hd & Hf & H3 & H4 & H5 & H6 & H7).
      exists w', found. split; [exact H1|]. split; [exact H2|]. split; [exact Hd|].
      split.
      * eapply Forall_impl; [|exact Hf].
        intros el' (tt & x & Htt & Hrest). exists tt, x. split; [right; exact Htt|].
        exact Hrest.
      * repeat split; auto. simpl. lia.
Qed.

(** ** Leaving twice, and what [leave] keeps *)

(** X13.  A second successful [leave] finds nothing to clean: it returns the
    world the first one left, unchanged. *)
Theorem leave_twice w :
  exists w1, leave Fulfilled w = Normal w1 /\ leave Fulfilled w1 = Normal w1.
Proof.
  eexists. split; [unfold leave; apply leave_loop|].
  unfold leave. cbn [document].
  assert (H : querySelectorAll leaveSelector
                (removeAll (map nidOf (querySelectorAll leaveSelector (document w)))
                           (document w)) = []).
  { unfold querySelectorAll at 1.
    assert (Hf : filter (matchesAny leaveSelector)
                   (walkAll [] (removeAll (map nidOf (querySelectorAll leaveSelector
                                                        (document w)))
                                          (document w))) = []).
    { apply filter_nil_iff. intros x Hin.
      apply (removeAll_selected_clears leaveSelector (document w) x Hin). }
    rewrite Hf. reflexivity. }
  rewrite H. reflexivity.
Qed.

Lemma existsb_forallb_negb (A : Type) (p : A -> bool) l :
  existsb p l = true -> forallb (fun a => negb (p a)) l = false.
Proof.
  induction l as [|a r IH]; simpl; [discriminate|].
  destruct (p a); simpl; [reflexivity|exact IH].
Qed.

(** Below an element with the identity [k] nothing is clean. *)
Lemma walk_dead k n :
  forall anc x,
    existsb (fun a => Nat.eqb (nid a) k) anc = true ->
    In x (walk anc n) -> clean k x = false.
Proof.
  induction n as [e cs IH] using node_forall_ind. intros anc x Hanc Hin.
  simpl in Hin. destruct Hin as [<-|Hin].
  - unfold clean. simpl. rewrite (existsb_forallb_negb _ _ Hanc). apply andb_false_r.
  - apply in_flat_map in Hin. destruct Hin as (c & Hc & Hx).
    rewrite Forall_forall in IH. apply (IH c Hc (e :: anc) x); [|exact Hx].
    simpl. rewrite Hanc. apply orb_true_r.
Qed.

Lemma walk_dead_root k n anc :
  keeps k n = false -> filter (clean k) (walk anc n) = [].
Proof.
  intros Hk. apply filter_nil_iff. intros x Hin.
  destruct n as [e cs]. unfold keeps in Hk. simpl in Hk. apply negb_false_iff in Hk.
  simpl in Hin. destruct Hin as [<-|Hin].
  - unfold clean. simpl. rewrite Hk. reflexivity.
  - apply in_flat_map in Hin. destruct Hin as (c & Hc & Hx).
    apply (@walk_dead k c (e :: anc) x); [|exact Hx]. simpl. rewrite Hk. reflexivity.
Qed.

Lemma walk_filter_prune_exact k cs anc :
  Forall (fun c => forall anc,
              forallb (fun a => negb (Nat.eqb (nid a) k)) anc = true ->
              keeps k c = true ->
              walk anc (prune k c) = map (pruned k) (filter (clean k) (walk anc c))) cs ->
  forallb (fun a => negb (Nat.eqb (nid a) k)) anc = true ->
  walkAll anc (filter (keeps k) (map (prune k) cs))
  = map (pruned k) (filter (clean k) (walkAll anc cs)).
Proof.
  intros H Hanc. unfold walkAll. induction H as [|c r Hc _ IHr]; simpl; [reflexivity|].
  rewrite keeps_prune, filter_app, map_app.
  destruct (keeps k c) eqn:E; simpl.
  - rewrite (Hc anc Hanc eq_refl), IHr. reflexivity.
  - rewrite (@walk_dead_root k c anc E), IHr. reflexivity.
Qed.

(** The document order after a removal: the clean entries, pruned. *)
Lemma walk_prune_exact k n :
  forall anc,
    forallb (fun a => negb (Nat.eqb (nid a) k)) anc = true ->
    keeps k n = true ->
    walk anc (prune k n) = map (pruned k) (filter (clean k) (walk anc n)).
Proof.
  induction n as [e cs IH] using node_forall_ind. intros anc Hanc Hk.
  assert (Hhead : clean k (anc, Node e cs) = true).
  { unfold clean. cbn [fst snd]. rewrite Hanc. unfold keeps in Hk. rewrite Hk.
    reflexivity. }
  cbn [walk prune]. cbn [filter]. rewrite Hhead. cbn [map]. f_equal.
  apply (@walk_filter_prune_exact k cs (e :: anc) IH).
  cbn [forallb]. rewrite Hanc. unfold keeps in Hk. simpl in Hk. rewrite Hk. reflexivity.
Qed.

Lemma walkAll_removeElement_exact k doc :
  walkAll [] (removeElement k doc) = map (pruned k) (filter (clean k) (walkAll [] doc)).
Proof.
  apply walk_filter_prune_exact; [|reflexivity].
  apply Forall_forall. intros c _. apply walk_prune_exact.
Qed.

Lemma clean_same k x y :
  fst y = fst x -> elOf (snd y) = elOf (snd x) -> clean k y = clean k x.
Proof. intros Hf He. unfold clean. rewrite Hf, He. reflexivity. Qed.

Lemma survive_removeAll ks :
  forall doc x,
    In x (walkAll [] doc) ->
    (forall k, In k ks -> clean k x = true) ->
    exists x', In x' (walkAll [] (removeAll ks doc))
               /\ fst x' = fst x /\ elOf (snd x') = elOf (snd x).
Proof.
  induction ks as [|k r IH]; intros doc x Hin Hclean; simpl.
  - exists x. auto.
  - assert (Hin1 : In (pruned k x) (walkAll [] (removeElement k doc))).
    { rewrite walkAll_removeElement_exact. apply in_map, filter_In.
      split; [exact Hin|]. apply Hclean. left. reflexivity. }
    destruct (IH (removeElement k doc) (pruned k x) Hin1) as (x' & Hx' & Hf & He).
    + intros j Hj. rewrite (@clean_same j x (pruned k x)).
      * apply Hclean. right. exact Hj.
      * reflexivity.
      * unfold pruned. simpl. apply elOf_prune.
    + exists x'. split; [exact Hx'|]. split; [exact Hf|].
      rewrite He. unfold pruned. simpl. apply elOf_prune.
Qed.

(** Every ancestor of an entry is the element of an entry. *)
Lemma ancestors_walk n :
  forall anc x a,
    In x (walk anc n) -> In a (fst x) ->
    In a anc \/ exists y, In y (walk anc n) /\ elOf (snd y) = a.
Proof.
  induction n as [e cs IH] using node_forall_ind. intros anc x a Hin Ha.
  simpl in Hin. destruct Hin as [<-|Hin]; [left; exact Ha|].
  apply in_flat_map in Hin. destruct Hin as (c & Hc & Hx).
  rewrite Forall_forall in IH.
  destruct (IH c Hc (e :: anc) x a Hx Ha) as [[<-|Hanc]|(y & Hy & Hel)].
  - right. exists (anc, Node e cs). split; [left; reflexivity|reflexivity].
  - left. exact Hanc.
  - right. exists y. split; [|exact Hel]. simpl. right.
    apply in_flat_map. exists c. auto.
Qed.

Lemma ancestors_walkAll doc x a :
  In x (walkAll [] doc) -> In a (fst x) ->
  exists y, In y (walkAll [] doc) /\ elOf (snd y) = a.
Proof.
  unfold walkAll. intros Hin Ha. apply in_flat_map in Hin.
  destruct Hin as (n & Hn & Hx).
  destruct (ancestors_walk n [] x a Hx Ha) as [[]|(y & Hy & Hel)].
  exists y. split; [|exact Hel]. apply in_flat_map. exists n. auto.
Qed.

Lemma unique_by_filter (A : Type) (p : A -> bool) l x y :
  length (filter p l) <= 1 ->
  In x l -> In y l -> p x = true -> p y = true -> x = y.
Proof.
  induction l as [|a r IH]; simpl; intros Hl Hx Hy Px Py; [contradiction|].
  destruct (p a) eqn:Pa.
  - simpl in Hl. assert (Hr : filter p r = []) by (apply length_zero_iff_nil; lia).
    rewrite filter_nil_iff in Hr.
    destruct Hx as [<-|Hx]; [|rewrite (Hr x Hx) in Px; discriminate].
    destruct Hy as [<-|Hy]; [reflexivity|rewrite (Hr y Hy) in Py; discriminate].
  - destruct Hx as [<-|Hx]; [congruence|].
    destruct Hy as [<-|Hy]; [congruence|]. apply IH; assumption.
Qed.

(** In a well-formed world two entries with the same identity are one. *)
Lemma wellFormed_unique w x y :
  wellFormed w ->
  In x (walkAll [] (document w)) -> In y (walkAll [] (document w)) ->
  nid (elOf (snd x)) = nid (elOf (snd y)) -> x = y.
Proof.
  intros Hwf Hx Hy Hn.
  apply (@unique_by_filter _ (fun z => nidIs (nid (elOf (snd x))) (elOf (snd z)))
                           (walkAll [] (document w))); auto.
  - rewrite length_filter_walkAll. specialize (Hwf (nid (elOf (snd x)))).
    destruct (Nat.ltb _ _); lia.
  - unfold nidIs. apply Nat.eqb_refl.
  - unfold nidIs. rewrite Hn. apply Nat.eqb_refl.
Qed.

Lemma mediaFree_not_selected x e :
  mediaFree x = true -> In e (elOf (snd x) :: fst x) ->
  tagName e <> "audio" /\ tagName e <> "video".
Proof.
  unfold mediaFree. intros H He. rewrite forallb_forall in H. specialize (H e He).
  apply negb_true_iff, orb_false_iff in H. destruct H as [Hv Ha].
  unfold tagIs in *. apply String.eqb_neq in Hv, Ha. auto.
Qed.

(** X14.  A successful [leave] removes media and nothing else: in a world
    whose elements have distinct identities, every element that is neither a
    [video] nor an [audio] element, nor inside one, is still in the document
    afterwards, under the same ancestors and with the same attributes.  The
    participants' containers and the device labels outlive the call. *)
Theorem leave_keeps_other_elements w x :
  wellFormed w ->
  In x (walkAll [] (document w)) ->
  mediaFree x = true ->
  exists w' x',
    leave Fulfilled w = Normal w'
    /\ In x' (walkAll [] (document w'))
    /\ fst x' = fst x /\ elOf (snd x') = elOf (snd x).
Proof.
  intros Hwf Hin Hfree.
  destruct (@survive_removeAll
              (map nidOf (querySelectorAll leaveSelector (document w)))
              (document w) x Hin) as (x' & Hx' & Hf & He).
  - intros k Hk. apply in_map_iff in Hk. destruct Hk as (z & <- & Hz).
    unfold querySelectorAll in Hz. apply in_map_iff in Hz.
    destruct Hz as (y & <- & Hy). apply filter_In in Hy. destruct Hy as [Hy Hsel].
    apply leaveSelector_matches in Hsel.
    assert (Hmedia : forall e, In e (elOf (snd x) :: fst x) ->
                               nid e <> nid (elOf (snd y))).
    { intros e He Hn.
      assert (Hent : exists y', In y' (walkAll [] (document w)) /\ elOf (snd y') = e).
      { destruct He as [<-|He]; [exists x; auto|].
        apply (@ancestors_walkAll (document w) x e Hin He). }
      destruct Hent as (y' & Hy' & Hel). subst e.
      assert (y' = y) by (apply (@wellFormed_unique w y' y Hwf Hy' Hy Hn)). subst y'.
      destruct (@mediaFree_not_selected x _ Hfree He) as [Ha Hv].
      destruct Hsel as [Hsel|[Hsel _]]; congruence. }
    unfold clean, nidOf. apply andb_true_iff. split.
    + apply negb_true_iff, Nat.eqb_neq, Hmedia. left. reflexivity.
    + apply forallb_forall. intros a Ha.
      apply negb_true_iff, Nat.eqb_neq, Hmedia. right. exact Ha.
  - eexists. exists x'. split; [unfold leave; apply leave_loop|].
    cbn [document]. auto.
Qed.

Lemma wellFormed_inCall : wellFormed inCall.
Proof. rewrite <- inCall_reached. apply runEvents_wellFormed, wellFormed_page. Qed.

Lemma leave_keeps_other_elements_witness :
  exists w' x',
    leave Fulfilled inCall = Normal w'
    /\ In x' (walkAll [] (document w'))
    /\ fst x' = [plain 1 "div" "videos"; plain 0 "body" ""]
    /\ elOf (snd x') = plain 4 "div" "video-container-p1".
Proof.
  apply (@leave_keeps_other_elements
           inCall ([plain 1 "div" "videos"; plain 0 "body" ""], containerOfP1)).
  - exact wellFormed_inCall.
  - vm_compute. do 2 right. left. reflexivity.
  - reflexivity.
Defined.

(** ** The loop over the tracks in the steady state *)

Lemma gentle_seq c1 c2 w :
  gentle c1 w -> (forall w1, sameLookups w w1 -> gentle c2 w1) -> gentle (c1 ;; c2) w.
Proof.
  intros (w1 & H1 & S1) H2. destruct (H2 w1 S1) as (w2 & H3 & S2).
  exists w2. unfold seq. rewrite H1. split; [exact H3|].
  eapply sameLookups_trans; eassumption.
Qed.

Lemma gentle_skip w : gentle skip w.
Proof. exists w. split; [reflexivity|apply sameLookups_refl]. Qed.

Lemma gentle_startOrUpdateTrack trackType track participantId w t :
  persistentTrack track = Some t ->
  gentle (startOrUpdateTrack trackType track participantId) w.
Proof.
  intros Ht. unfold gentle, startOrUpdateTrack. rewrite Ht.
  destruct (trackElement trackType participantId (document w)) as [el|].
  - destruct (negb _).
    + eexists. split; [reflexivity|].
      eapply sameLookups_trans.
      * apply (@sameLookups_update
                 (nid (elOf el))
                 (with_srcObject (Some (mkStream (nextStream w) [t]))) w
                 (with_document
                    (updateElement (nid (elOf el))
                       (with_srcObject (Some (mkStream (nextStream w) [t])))
                       (document w)) w)); [auto with dom|reflexivity].
      * apply (@sameLookups_update
                 (nid (elOf el))
                 (with_onloadedmetadata (Some (PlayAndLogFailure trackType participantId))));
          [auto with dom|reflexivity].
    + exists w. split; [reflexivity|apply sameLookups_refl].
  - eexists. split; [reflexivity|]. apply sameLookups_same_document. reflexivity.
Qed.

Lemma gentle_updateVideoUi track participantId w :
  hasVideoIn (containerId participantId) (document w) = true ->
  gentle (updateVideoUi track participantId) w.
Proof.
  unfold hasVideoIn. intros H.
  destruct (getElementById (containerId participantId) (document w)) as [c|] eqn:Hc;
    [|discriminate].
  destruct (querySelectorIn videoElement c) as [v|] eqn:Hv; [|discriminate].
  unfold gentle. rewrite (updateVideoUi_found track participantId w Hc Hv).
  eexists. split; [reflexivity|].
  apply (@sameLookups_update (nid (elOf v)) (with_display (displayFor (state track))));
    [auto with dom|reflexivity].
Qed.

Lemma gentle_updateUiForDevicesState trackType trackInfo w :
  present "camera-state" (document w) = true ->
  present "mic-state" (document w) = true ->
  gentle (updateUiForDevicesState trackType trackInfo) w.
Proof.
  unfold present, gentle, updateUiForDevicesState. intros Hc Hm.
  destruct (String.eqb trackType "video").
  - destruct (getElementById "camera-state" (document w)) as [label|]; [|discriminate].
    eexists. split; [reflexivity|].
    apply (@sameLookups_update (nid (elOf label))
             (with_textContent ("Camera: " ++ onOff (localVideo w))));
      [auto with dom|reflexivity].
  - destruct (String.eqb trackType "audio").
    + destruct (getElementById "mic-state" (document w)) as [label|]; [|discriminate].
      eexists. split; [reflexivity|].
      apply (@sameLookups_update (nid (elOf label))
               (with_textContent ("Mic: " ++ onOff (localAudio w))));
        [auto with dom|reflexivity].
    + exists w. split; [reflexivity|apply sameLookups_refl].
Qed.

Lemma forallb_pointwise (A : Type) (p q : A -> bool) l :
  (forall x, p x = q x) -> forallb p l = forallb q l.
Proof.
  intros H. induction l as [|x r IH]; simpl; [reflexivity|]. rewrite H, IH. reflexivity.
Qed.

Lemma steady_sameLookups participantId isLocal entries w w' :
  sameLookups w w' ->
  steady participantId isLocal entries (document w')
  = steady participantId isLocal entries (document w).
Proof.
  intros H. unfold steady, labelsReady.
  destruct (H (containerId participantId)) as (_ & -> & _).
  destruct (H "camera-state") as (-> & _ & ->).
  destruct (H "mic-state") as (-> & _ & ->).
  f_equal. apply forallb_pointwise. intros entry. unfold entryReady.
  destruct (persistentTrack (snd entry)); [reflexivity|].
  destruct (H (fst entry ++ "-" ++ participantId)) as (-> & _). reflexivity.
Qed.

Lemma gentle_handleTrack participantId isLocal entry rest w :
  steady participantId isLocal (entry :: rest) (document w) = true ->
  gentle (handleTrack app isLocal participantId entry) w.
Proof.
  intros H.
  assert (Hrest : forall w1, sameLookups w w1 ->
                             steady participantId isLocal (entry :: rest) (document w1)
                             = true).
  { intros w1 S. rewrite (steady_sameLookups participantId isLocal (entry :: rest) S).
    exact H. }
  destruct entry as [trackType trackInfo]. unfold handleTrack. cbn [app This.startOrUpdateTrack
    This.destroyTracks This.updateVideoUi This.updateUiForDevicesState].
  apply gentle_seq.
  - destruct (persistentTrack trackInfo) as [t|] eqn:Ht.
    + unfold when. destruct (negb _); [|apply gentle_skip].
      apply (gentle_startOrUpdateTrack trackType trackInfo participantId w Ht).
    + exists w. split; [|apply sameLookups_refl].
      apply destroyTracks_absent_step.
      unfold steady in H. cbn [forallb] in H. unfold entryReady at 1 in H.
      cbn [fst snd] in H. rewrite Ht in H.
      apply andb_true_iff in H. destruct H as [_ H].
      apply andb_true_iff in H. destruct H as [H _].
      apply negb_true_iff in H. exact H.
  - intros w1 S1. specialize (Hrest w1 S1) as H1. apply gentle_seq.
    + unfold when. destruct (String.eqb trackType "video"); [|apply gentle_skip].
      apply gentle_updateVideoUi. unfold steady in H1.
      apply andb_true_iff in H1. destruct H1 as [H1 _].
      apply andb_true_iff in H1. destruct H1 as [H1 _]. exact H1.
    + intros w2 S2.
      assert (S : sameLookups w w2) by (eapply sameLookups_trans; eassumption).
      specialize (Hrest w2 S) as H2.
      unfold when. destruct isLocal; [|apply gentle_skip].
      unfold steady, labelsReady in H2. cbn [negb orb] in H2.
      apply andb_true_iff in H2. destruct H2 as [H2 _].
      apply andb_true_iff in H2. destruct H2 as [_ H2].
      apply andb_true_iff in H2. destruct H2 as [H2 _].
      apply andb_true_iff in H2. destruct H2 as [H2 _].
      apply andb_true_iff in H2. destruct H2 as [Hc Hm].
      apply gentle_updateUiForDevicesState; assumption.
Qed.

(** X15.  In the steady state the loop over the tracks never throws, and it
    stays in the steady state.  The steady state: the participant's container
    with its video element is in the document; for the local participant the
    two device labels are there and have no element children; every entry
    with a live handle is looked up within the selector model (its track type
    is not [video], or the participant id consists of letters, digits, [-]
    and [_]); and for every entry without live handle no element carries the
    id [destroyTracks] would look up.  Every entry is then processed, the loop
    returns normally, and the same holds for the world it returns, so the
    next snapshot of the same shape is processed as well. *)
Theorem track_loop_steady participantId isLocal entries w :
  steady participantId isLocal entries (document w) = true ->
  exists w',
    forEach (handleTrack app isLocal participantId) entries w = Normal w'
    /\ steady participantId isLocal entries (document w') = true.
Proof.
  intros H.
  assert (G : forall done w,
             steady participantId isLocal (done ++ entries)%list (document w) = true ->
             exists w',
               forEach (handleTrack app isLocal participantId) entries w = Normal w'
               /\ sameLookups w w').
  { clear H w. induction entries as [|entry rest IH]; intros done w H.
    - exists w. split; [reflexivity|apply sameLookups_refl].
    - assert (H0 : steady participantId isLocal (entry :: rest) (document w) = true).
      { unfold steady in *. rewrite forallb_app in H.
        apply andb_true_iff in H. destruct H as [H1 H2].
        apply andb_true_iff in H2. destruct H2 as [_ H2].
        rewrite H1, H2. reflexivity. }
      destruct (gentle_handleTrack participantId isLocal entry rest w H0)
        as (w1 & H1 & S1).
      destruct (IH (done ++ [entry])%list w1) as (w' & H2 & S2).
      + rewrite <- app_assoc.
        rewrite (@steady_sameLookups participantId isLocal _ w w1 S1).
        exact H.
      + exists w'. cbn [forEach]. unfold seq. rewrite H1. split; [exact H2|].
        eapply sameLookups_trans; eassumption. }
  destruct (G [] w H) as (w' & H1 & S). exists w'. split; [exact H1|].
  rewrite (steady_sameLookups participantId isLocal entries S). exact H.
Qed.

Lemma track_loop_steady_witness :
  exists w',
    forEach (handleTrack app false "p1") (tracks (participant videoLost)) inCall = Normal w'
    /\ steady "p1" false (tracks (participant videoLost)) (document w') = true.
Proof.
  apply (@track_loop_steady "p1" false (tracks (participant videoLost)) inCall).
  reflexivity.
Defined.

Lemma startOrUpdateTrack_throws_iff_witness :
  (exists e w', startOrUpdateTrack "video" (mkTrack "off" None) "p1" inCall = Thrown e w')
  /\ forall e w',
       startOrUpdateTrack "video" (mkTrack "playable" (Some 7)) "p1" inCall
       <> Thrown e w'.
Proof.
  split.
  - apply (proj2 (@startOrUpdateTrack_throws_iff
                    "video" (mkTrack "off" None) "p1" inCall eq_refl)).
    split; [discriminate|reflexivity].
  - intros e w' H.
    destruct (proj1 (proj2 (@startOrUpdateTrack_throws_iff
                              "video" (mkTrack "playable" (Some 7)) "p1" inCall eq_refl))
                    (ex_intro _ e (ex_intro _ w' H))) as [_ Hnone].
    discriminate.
Defined.

(** ** Track types other than [video] and [audio] *)

Lemma trackElement_other trackType participantId doc :
  trackType <> "video" ->
  trackElement trackType participantId doc = getElementById (audioId participantId) doc.
Proof.
  intros H. unfold trackElement. apply String.eqb_neq in H. rewrite H. reflexivity.
Qed.

(** X16.  Every track type other than [video] is reconciled onto the
    participant's audio element: with a live handle that is not yet bound
    there, [startOrUpdateTrack] for, say, [screenVideo] replaces the source of
    [audio-{id}] by a new stream holding that handle alone, displacing
    whatever the element was playing. *)
Theorem other_track_types_use_audio_element trackType track participantId w audioEl t :
  trackType <> "video" ->
  getElementById (audioId participantId) (document w) = Some audioEl ->
  persistentTrack track = Some t ->
  ~ bound t (elOf audioEl) ->
  exists w' audioEl',
    startOrUpdateTrack trackType track participantId w = Normal w'
    /\ getElementById (audioId participantId) (document w') = Some audioEl'
    /\ nid (elOf audioEl') = nid (elOf audioEl)
    /\ srcObject (elOf audioEl') = Some (mkStream (nextStream w) [t])
    /\ onloadedmetadata (elOf audioEl')
       = Some (PlayAndLogFailure trackType participantId).
Proof.
  intros Htype Hel Ht Hnb.
  assert (Hinc : includesTrack (option_map getTracks (srcObject (elOf audioEl))) (Some t)
                 = false).
  { destruct (includesTrack _ (Some t)) eqn:E; [|reflexivity].
    exfalso. apply Hnb, includesTrack_bound, E. }
  unfold startOrUpdateTrack.
  rewrite (trackElement_other participantId (document w) Htype), Hel, Ht, Hinc.
  do 2 eexists. split; [reflexivity|].
  unfold with_document, emit. cbn [document]. unfold updateElement.
  rewrite !getElementById_mapNode by auto with dom. rewrite Hel. cbn [option_map].
  split; [reflexivity|].
  rewrite !elOf_mapNode. unfold onElement.
  cbn [nid with_srcObject with_onloadedmetadata srcObject onloadedmetadata].
  rewrite Nat.eqb_refl.
  cbn [nid with_srcObject with_onloadedmetadata srcObject onloadedmetadata].
  rewrite Nat.eqb_refl.
  cbn [nid with_srcObject with_onloadedmetadata srcObject onloadedmetadata]. auto.
Qed.

Lemma other_track_types_use_audio_element_witness :
  exists w' audioEl',
    startOrUpdateTrack "screenVideo" (mkTrack "playable" (Some 9)) "p1" inCall = Normal w'
    /\ getElementById (audioId "p1") (document w') = Some audioEl'
    /\ nid (elOf audioEl') = 6
    /\ srcObject (elOf audioEl') = Some (mkStream 2 [9])
    /\ onloadedmetadata (elOf audioEl') = Some (PlayAndLogFailure "screenVideo" "p1").
Proof.
  apply (@other_track_types_use_audio_element
           "screenVideo" (mkTrack "playable" (Some 9)) "p1" inCall
           (Node (mkElement 6 "audio" "audio-p1" [] (Some (mkStream 1 [8])) "" ""
                            (Some (PlayAndLogFailure "audio" "p1"))) []) 9).
  - discriminate.
  - reflexivity.
  - reflexivity.
  - intros (stream & Hs & Hin). simpl in Hs. injection Hs as <-.
    simpl in Hin. destruct Hin as [Hin|[]]. discriminate.
Defined.
